(** * The move-search core of the chess engine (src/chess.py)

    A shallow embedding of [evaluate_board], [order_moves], [minimax] and
    [find_best_move], together with the process-wide [transposition_table].

    The chess rules themselves (legal moves, push/pop, check and mate
    detection, FEN encoding) belong to the python-chess package, which the
    program imports; they enter this development as the record [Rules].
    Scores are Python numbers: integers produced by the material count, and
    the two floats [float('inf')] and [float('-inf')]; they are modelled by
    the three-constructor type [Score]. *)

From Stdlib Require Import ZArith Lia.
From stdpp Require Import base option list sorting gmap strings pretty.

Open Scope Z_scope.

(** ** Scores: Python ints extended with the two float infinities *)

Inductive Score : Type :=
  | NegInf
  | Fin (z : Z)
  | PosInf.

(** [a < b] on Python numbers. *)
Definition slt (a b : Score) : bool :=
  match a, b with
  | NegInf, NegInf => false
  | NegInf, _ => true
  | Fin _, NegInf => false
  | Fin x, Fin y => x <? y
  | Fin _, PosInf => true
  | PosInf, _ => false
  end.

(** [a <= b] on Python numbers. *)
Definition sle (a b : Score) : bool := negb (slt b a).

(** [max(a, b)]: the builtin keeps its first argument unless the second is
    strictly greater. *)
Definition smax (a b : Score) : Score := if slt a b then b else a.

(** [min(a, b)]: the builtin keeps its first argument unless the second is
    strictly smaller. *)
Definition smin (a b : Score) : Score := if slt b a then b else a.

(** ** Pieces, squares and moves (the data of python-chess the core reads) *)

Inductive PieceType : Type := PAWN | KNIGHT | BISHOP | ROOK | QUEEN | KING.

(** [chess.WHITE] is [True], [chess.BLACK] is [False]. *)
Definition Color : Type := bool.
Definition WHITE : Color := true.
Definition BLACK : Color := false.

Record Piece : Type := mkPiece { piece_type : PieceType; color : Color }.

Definition Square : Type := Z.

(** [chess.SQUARES = range(64)], a1 = 0, b1 = 1, ..., h8 = 63. *)
Definition SQUARES : list Square := seqZ 0 64.

Record Move : Type := mkMove {
  from_square : Square;
  to_square : Square;
  promotion : option PieceType
}.

#[global] Instance PieceType_eq_dec : EqDecision PieceType.
Proof. solve_decision. Defined.
#[global] Instance Piece_eq_dec : EqDecision Piece.
Proof. solve_decision. Defined.
#[global] Instance Move_eq_dec : EqDecision Move.
Proof. solve_decision. Defined.
#[global] Instance Score_eq_dec : EqDecision Score.
Proof. solve_decision. Defined.

(** [piece_values] (chess.py, lines 30-33). *)
Definition piece_values (t : PieceType) : Z :=
  match t with
  | PAWN => 1
  | KNIGHT => 3
  | BISHOP => 3
  | ROOK => 5
  | QUEEN => 9
  | KING => 0
  end.

(** ** The rules collaborator

    What the core calls on a [chess.Board].  [push] and [pop] mutate the
    board object in place; here a board value is the whole state of that
    object (position and move stack), and a mutation is a function to the
    next state. *)

Record Rules : Type := mkRules {
  Board : Type;
  legal_moves : Board → list Move;
  push : Board → Move → Board;
  pop : Board → Board;
  turn : Board → Color;
  is_checkmate : Board → bool;
  is_stalemate : Board → bool;
  is_insufficient_material : Board → bool;
  is_game_over : Board → bool;
  piece_at : Board → Square → option Piece;
  is_capture : Board → Move → bool;
  gives_check : Board → Move → bool;
  fen : Board → string
}.

Arguments legal_moves {_} _.
Arguments push {_} _ _.
Arguments pop {_} _.
Arguments turn {_} _.
Arguments is_checkmate {_} _.
Arguments is_stalemate {_} _.
Arguments is_insufficient_material {_} _.
Arguments is_game_over {_} _.
Arguments piece_at {_} _ _.
Arguments is_capture {_} _ _.
Arguments gives_check {_} _ _.
Arguments fen {_} _.

(** The one law of the collaborator the search relies on: [pop] undoes the
    [push] of a legal move. *)
Definition pop_undoes_push (R : Rules) : Prop :=
  ∀ (b : Board R) (m : Move), m ∈ legal_moves b → pop (push b m) = b.

(** ** Cache keys and the state the core runs in *)

(** [key = (board.fen(), depth, maximizing_player)]. *)
Definition Key : Type := string * Z * bool.

(** Result of running a piece of the program: a returned value, or a raised
    exception (the only one modelled is the interpreter's recursion limit). *)
Inductive Outcome (A : Type) : Type :=
  | Ok (a : A)
  | Raise.
Arguments Ok {_} _.
Arguments Raise {_}.

Section Engine.
Context {R : Rules}.

(** The two mutable objects the core touches: the board it is handed, and
    the module-level dictionary [transposition_table]. *)
Record World : Type := mkWorld {
  board : Board R;
  table : gmap Key Score
}.

Definition M (A : Type) : Type := World → Outcome A * World.

Definition ret {A} (a : A) : M A := λ w, (Ok a, w).

(** Sequencing: an exception raised by [c] propagates at once, the state
    being whatever [c] left behind. *)
Definition bind {A B} (c : M A) (k : A → M B) : M B :=
  λ w, match c w with
       | (Ok a, w') => k a w'
       | (Raise, w') => (Raise, w')
       end.

Definition raise {A} : M A := λ w, (Raise, w).

(** A read-only method of the board. *)
Definition ask {A} (f : Board R → A) : M A := λ w, (Ok (f (board w)), w).

(** [board.push(move)] and [board.pop()]. *)
Definition board_push (m : Move) : M unit :=
  λ w, (Ok (), mkWorld (push (board w) m) (table w)).
Definition board_pop : M unit :=
  λ w, (Ok (), mkWorld (pop (board w)) (table w)).

(** [transposition_table.get(key)] and [transposition_table[key] = v]. *)
Definition table_get (k : Key) : M (option Score) :=
  λ w, (Ok (table w !! k), w).
Definition table_set (k : Key) (v : Score) : M unit :=
  λ w, (Ok (), mkWorld (board w) (<[k := v]> (table w))).

End Engine.

Arguments World : clear implicits.
Arguments M : clear implicits.

Notation "x <- c ;; k" := (bind c (λ x, k))
  (at level 100, c at next level, right associativity).
Notation "c ;; k" := (bind c (λ _, k))
  (at level 100, right associativity).

Section Core.
Context {R : Rules}.

(** *** [evaluate_board] (chess.py, lines 35-46) *)

(** The [for sq in chess.SQUARES] loop, [score] being the accumulator. *)
Fixpoint material_loop (sqs : list Square) (score : Z) : M R Z :=
  match sqs with
  | [] => ret score
  | sq :: rest =>
      p <- ask (λ b, piece_at b sq);;
      match p with
      | Some p =>
          let val := piece_values (piece_type p) in
          material_loop rest
            (score + (if color p then val else - val))
      | None => material_loop rest score
      end
  end.

Definition evaluate_board : M R Score :=
  mate <- ask is_checkmate;;
  if mate then
    t <- ask turn;;
    ret (if t then NegInf else PosInf)
  else
    stale <- ask is_stalemate;;
    insufficient <- (if stale then ret true
                     else ask is_insufficient_material);;
    if insufficient then ret (Fin 0)
    else
      score <- material_loop SQUARES 0;;
      ret (Fin score).

(** *** [order_moves] (chess.py, lines 48-62) *)

Definition score_move (move : Move) : M R Z :=
  let score := 0 in
  capture <- ask (λ b, is_capture b move);;
  score <- (if capture then
             victim <- ask (λ b, piece_at b (to_square move));;
             attacker <- ask (λ b, piece_at b (from_square move));;
             let victim_val :=
               match victim with
               | Some v => piece_values (piece_type v)
               | None => 0
               end in
             let attacker_val :=
               match attacker with
               | Some a => piece_values (piece_type a)
               | None => 0
               end in
             ret (score + (10 * victim_val - attacker_val))
           else ret score);;
  let score := match promotion move with
               | Some _ => score + 8
               | None => score
               end in
  check <- ask (λ b, gives_check b move);;
  ret (if check then score + 5 else score).

(** [sorted(..., key=..., reverse=True)] computes the key of every element
    once, in list order, and then sorts stably: larger keys first, equal
    keys in their original order. *)
Fixpoint keyed (moves : list Move) : M R (list (Z * Move)) :=
  match moves with
  | [] => ret []
  | m :: rest =>
      k <- score_move m;;
      ks <- keyed rest;;
      ret ((k, m) :: ks)
  end.

Fixpoint insert_desc (x : Z * Move) (l : list (Z * Move)) : list (Z * Move) :=
  match l with
  | [] => [x]
  | y :: l' => if y.1 <=? x.1 then x :: l else y :: insert_desc x l'
  end.

Definition sort_desc (l : list (Z * Move)) : list (Z * Move) :=
  foldr insert_desc [] l.

Definition order_moves : M R (list Move) :=
  moves <- ask legal_moves;;
  ks <- keyed moves;;
  ret (map snd (sort_desc ks)).

(** *** [minimax] (chess.py, lines 64-95) *)

(** The body of [for move in order_moves(board)] in the maximizing branch;
    [rec alpha beta] is the recursive call
    [minimax(board, depth-1, alpha, beta, False)]. *)
Fixpoint max_loop (rec : Score → Score → M R Score) (moves : list Move)
    (max_eval alpha beta : Score) : M R Score :=
  match moves with
  | [] => ret max_eval
  | move :: rest =>
      board_push move;;
      val <- rec alpha beta;;
      board_pop;;
      let max_eval := smax max_eval val in
      let alpha := smax alpha val in
      if sle beta alpha then ret max_eval
      else max_loop rec rest max_eval alpha beta
  end.

(** The same loop in the minimizing branch. *)
Fixpoint min_loop (rec : Score → Score → M R Score) (moves : list Move)
    (min_eval alpha beta : Score) : M R Score :=
  match moves with
  | [] => ret min_eval
  | move :: rest =>
      board_push move;;
      val <- rec alpha beta;;
      board_pop;;
      let min_eval := smin min_eval val in
      let beta := smin beta val in
      if sle beta alpha then ret min_eval
      else min_loop rec rest min_eval alpha beta
  end.

(** [fuel] is the number of nested [minimax] frames the interpreter still
    allows; a call made with none left raises. *)
Fixpoint minimax (fuel : nat) (depth : Z) (alpha beta : Score)
    (maximizing_player : bool) : M R Score :=
  match fuel with
  | O => raise
  | S fuel' =>
      position <- ask fen;;
      let key : Key := (position, depth, maximizing_player) in
      cached <- table_get key;;
      match cached with
      | Some v => ret v
      | None =>
          over <- (if depth =? 0 then ret true else ask is_game_over);;
          if over then
            val <- evaluate_board;;
            table_set key val;;
            ret val
          else if maximizing_player then
            moves <- order_moves;;
            max_eval <- max_loop
              (λ a b, minimax fuel' (depth - 1) a b false)
              moves NegInf alpha beta;;
            table_set key max_eval;;
            ret max_eval
          else
            moves <- order_moves;;
            min_eval <- min_loop
              (λ a b, minimax fuel' (depth - 1) a b true)
              moves PosInf alpha beta;;
            table_set key min_eval;;
            ret min_eval
      end
  end.

(** *** [find_best_move] (chess.py, lines 97-110) *)

(** The root loop; it carries [best_move], [best_val] and [beta]
    ([alpha] is never assigned). *)
Fixpoint root_loop (rec : Score → Score → M R Score) (moves : list Move)
    (best_move : option Move) (best_val alpha beta : Score)
    : M R (option Move * Score) :=
  match moves with
  | [] => ret (best_move, best_val)
  | move :: rest =>
      board_push move;;
      val <- rec alpha beta;;
      board_pop;;
      if slt val best_val then
        root_loop rec rest (Some move) val alpha (smin beta val)
      else
        root_loop rec rest best_move best_val alpha beta
  end.

(** The loop of [find_best_move] with its final [best_val] still visible. *)
Definition search_root (fuel : nat) (depth : Z) : M R (option Move * Score) :=
  moves <- order_moves;;
  root_loop (λ a b, minimax fuel (depth - 1) a b true)
    moves None PosInf NegInf PosInf.

Definition find_best_move (fuel : nat) (depth : Z) : M R (option Move) :=
  r <- search_root fuel depth;;
  ret r.1.

End Core.

(** ** Reference definitions

    Functions of the board alone, against which the runs of the core are
    stated: the evaluator and the heuristic as the specification words them
    (sections 4.1 and 4.2), the value the read-only code computes where it
    differs, and minimax without window and without table. *)

Section Specification.
Context {R : Rules}.

(** The pieces standing on the board, square by square. *)
Definition pieces_on (b : Board R) : list Piece := omap (piece_at b) SQUARES.

(** Sum of the fixed values of the pieces of one colour. *)
Definition side_material (c : Color) (b : Board R) : Z :=
  foldr Z.add 0
    ((λ p, piece_values (piece_type p)) <$>
     filter (λ p, color p = c) (pieces_on b)).

(** Material balance: White's pieces count positively, Black's negatively. *)
Definition material_balance (b : Board R) : Z :=
  side_material WHITE b - side_material BLACK b.

(** The evaluator of section 4.1: mate sentinel, then draw, then material. *)
Definition static_eval (b : Board R) : Score :=
  if is_checkmate b then (if turn b then NegInf else PosInf)
  else if is_stalemate b || is_insufficient_material b then Fin 0
  else Fin (material_balance b).

(** Value of the piece on a square, 0 for an empty square. *)
Definition value_at (b : Board R) (sq : Square) : Z :=
  match piece_at b sq with
  | Some p => piece_values (piece_type p)
  | None => 0
  end.

(** The piece a move captures: the piece of the side not to move that
    stands on the board before the move and no longer stands on its square
    after it. *)
Definition captured_piece (b : Board R) (m : Move) : option Piece :=
  let gone (sq : Square) : option Piece :=
    match piece_at b sq with
    | Some p =>
        if bool_decide (color p ≠ turn b) &&
           bool_decide (piece_at (push b m) sq ≠ Some p)
        then Some p else None
    | None => None
    end in
  head (omap gone SQUARES).

(** Capture bonus as section 4.2 words it: ten times the value of the
    captured piece minus the value of the moving piece. *)
Definition spec_capture_bonus (b : Board R) (m : Move) : Z :=
  if is_capture b m then
    10 * from_option (λ p, piece_values (piece_type p)) 0 (captured_piece b m)
    - value_at b (from_square m)
  else 0.

(** Capture bonus as [score_move] computes it: the victim is looked up on
    the destination square. *)
Definition destination_bonus (b : Board R) (m : Move) : Z :=
  if is_capture b m then
    10 * value_at b (to_square m) - value_at b (from_square m)
  else 0.

Definition promotion_bonus (m : Move) : Z :=
  match promotion m with Some _ => 8 | None => 0 end.

Definition check_bonus (b : Board R) (m : Move) : Z :=
  if gives_check b m then 5 else 0.

(** The heuristic of section 4.2. *)
Definition spec_heuristic (b : Board R) (m : Move) : Z :=
  spec_capture_bonus b m + promotion_bonus m + check_bonus b m.

(** The heuristic [score_move] computes. *)
Definition heuristic (b : Board R) (m : Move) : Z :=
  destination_bonus b m + promotion_bonus m + check_bonus b m.

(** The list [order_moves] returns, as a function of the board. *)
Definition ordered (b : Board R) : list Move :=
  (sort_desc ((λ m, (heuristic b m, m)) <$> legal_moves b)).*2.

(** Plain minimax: no window, no cache; [d] plies over the same ordering. *)
Fixpoint full_minimax (d : nat) (b : Board R) (maximizing_player : bool)
    : Score :=
  match d with
  | O => static_eval b
  | S d' =>
      if is_game_over b then static_eval b
      else if maximizing_player then
        foldl smax NegInf
          ((λ m, full_minimax d' (push b m) false) <$> ordered b)
      else
        foldl smin PosInf
          ((λ m, full_minimax d' (push b m) true) <$> ordered b)
  end.

(** The root loop over already computed scores: a move replaces the best
    one only when its score is strictly lower. *)
Fixpoint pick_lowest (scored : list (Move * Score))
    (best_move : option Move) (best_val : Score) : option Move * Score :=
  match scored with
  | [] => (best_move, best_val)
  | (m, v) :: rest =>
      if slt v best_val then pick_lowest rest (Some m) v
      else pick_lowest rest best_move best_val
  end.

(** The move selector driven by plain minimax ([d] plies, [d >= 1]). *)
Definition full_search_root (b : Board R) (d : nat) : option Move * Score :=
  pick_lowest
    ((λ m, (m, full_minimax (d - 1) (push b m) true)) <$> ordered b)
    None PosInf.

Definition full_best_move (b : Board R) (d : nat) : option Move :=
  (full_search_root b d).1.

(** The cache keys of the nodes of the game tree below [b], [d] plies deep. *)
Fixpoint tree_keys (d : nat) (b : Board R) (maximizing_player : bool)
    : list Key :=
  (fen b, Z.of_nat d, maximizing_player) ::
  match d with
  | O => []
  | S d' =>
      if is_game_over b then []
      else
        mjoin ((λ m, tree_keys d' (push b m) (negb maximizing_player))
               <$> ordered b)
  end.

(** The keys of all nodes [find_best_move] can reach from [b]. *)
Definition search_keys (b : Board R) (d : nat) : list Key :=
  mjoin ((λ m, tree_keys (d - 1) (push b m) true) <$> ordered b).

End Specification.

(** ** Concrete rules collaborators

    Positions written out by hand, used to run the core on actual inputs.
    A position lists its pieces, its flags and, move by move, the position
    each legal move leads to, the way python-chess reports them for that
    position; below the horizon of the searches run on it a position lists
    no moves. *)

Module Explicit.

Definition Placement : Type := list (Square * Piece).

#[local] Unset Elimination Schemes.
Inductive Pos : Type := mkPos {
  pos_fen : string;
  pos_turn : Color;
  pos_mate : bool;
  pos_stale : bool;
  pos_insufficient : bool;
  pos_pieces : Placement;
  (* move, is_capture, gives_check, position after the move *)
  pos_moves : list (Move * bool * bool * Pos)
}.
#[local] Set Elimination Schemes.

(** The board object: the current position and the stack [pop] restores
    from. *)
Record TreeBoard : Type := mkBoard { current : Pos; history : list Pos }.

Definition entry (p : Pos) (m : Move) : option (Move * bool * bool * Pos) :=
  find (λ e, bool_decide (e.1.1.1 = m)) (pos_moves p).

Definition tree_push (b : TreeBoard) (m : Move) : TreeBoard :=
  match entry (current b) m with
  | Some e => mkBoard e.2 (current b :: history b)
  | None => mkBoard (current b) (current b :: history b)
  end.

Definition tree_pop (b : TreeBoard) : TreeBoard :=
  match history b with
  | p :: rest => mkBoard p rest
  | [] => b
  end.

Definition lookup_piece (pl : Placement) (sq : Square) : option Piece :=
  snd <$> find (λ e, bool_decide (e.1 = sq)) pl.

Definition rules : Rules := {|
  Board := TreeBoard;
  legal_moves b := (λ e, e.1.1.1) <$> pos_moves (current b);
  push := tree_push;
  pop := tree_pop;
  turn b := pos_turn (current b);
  is_checkmate b := pos_mate (current b);
  is_stalemate b := pos_stale (current b);
  is_insufficient_material b := pos_insufficient (current b);
  is_game_over b :=
    pos_mate (current b) || pos_stale (current b)
    || pos_insufficient (current b);
  piece_at b sq := lookup_piece (pos_pieces (current b)) sq;
  is_capture b m :=
    match entry (current b) m with Some e => e.1.1.2 | None => false end;
  gives_check b m :=
    match entry (current b) m with Some e => e.1.2 | None => false end;
  fen b := pos_fen (current b)
|}.

Definition start (p : Pos) : World rules :=
  @mkWorld rules (mkBoard p []) ∅.

(** *** Writing positions *)

Definition piece_symbol (p : Piece) : string :=
  match piece_type p, color p with
  | PAWN, true => "P" | KNIGHT, true => "N" | BISHOP, true => "B"
  | ROOK, true => "R" | QUEEN, true => "Q" | KING, true => "K"
  | PAWN, false => "p" | KNIGHT, false => "n" | BISHOP, false => "b"
  | ROOK, false => "r" | QUEEN, false => "q" | KING, false => "k"
  end.

Definition gap_text (gap : nat) : string :=
  match gap with O => "" | _ => pretty gap end.

Fixpoint fen_rank (cells : list (option Piece)) (gap : nat) : string :=
  match cells with
  | [] => gap_text gap
  | None :: rest => fen_rank rest (S gap)
  | Some p :: rest => gap_text gap +:+ piece_symbol p +:+ fen_rank rest 0
  end.

Definition rank_cells (pl : Placement) (r : Z) : list (option Piece) :=
  (λ f, lookup_piece pl (8 * r + f)) <$> seqZ 0 8.

(** The first field of a FEN record: ranks 8 down to 1, separated by [/]. *)
Definition fen_placement (pl : Placement) : string :=
  String.concat "/" ((λ r, fen_rank (rank_cells pl r) 0) <$> [7; 6; 5; 4; 3; 2; 1; 0]).

(** What a FEN record holds. *)
Record Snapshot : Type := mkSnapshot {
  pieces : Placement;
  to_move : Color;
  castling : string;
  en_passant : string;
  halfmove_clock : Z;
  fullmove_number : Z
}.

Definition snapshot_fen (s : Snapshot) : string :=
  fen_placement (pieces s) +:+ " " +:+ (if to_move s then "w" else "b")
  +:+ " " +:+ castling s +:+ " " +:+ en_passant s
  +:+ " " +:+ pretty (halfmove_clock s) +:+ " " +:+ pretty (fullmove_number s).

(** The placement after an ordinary move or capture on the destination
    square (no castling, no en passant). *)
Definition relocate (pl : Placement) (m : Move) : Placement :=
  match lookup_piece pl (from_square m) with
  | Some p =>
      let moved :=
        match promotion m with
        | Some t => mkPiece t (color p)
        | None => p
        end in
      (to_square m, moved) ::
      filter (λ e, e.1 ≠ from_square m ∧ e.1 ≠ to_square m) pl
  | None => pl
  end.

Definition is_pawn_move (pl : Placement) (m : Move) : bool :=
  match lookup_piece pl (from_square m) with
  | Some p => bool_decide (piece_type p = PAWN)
  | None => false
  end.

Definition occupied (pl : Placement) (sq : Square) : bool :=
  bool_decide (is_Some (lookup_piece pl sq)).

(** The FEN record after such a move: the clock restarts on a pawn move or
    a capture, the move number advances after Black has moved. *)
Definition snapshot_after (s : Snapshot) (m : Move) : Snapshot := {|
  pieces := relocate (pieces s) m;
  to_move := negb (to_move s);
  castling := castling s;
  en_passant := "-";
  halfmove_clock :=
    if is_pawn_move (pieces s) m || occupied (pieces s) (to_square m)
    then 0 else halfmove_clock s + 1;
  fullmove_number :=
    if to_move s then fullmove_number s else fullmove_number s + 1
|}.

(** A position that is not mate, stalemate or dead, with the given moves. *)
Definition position (s : Snapshot) (moves : list (Move * bool * bool * Pos))
    : Pos :=
  mkPos (snapshot_fen s) (to_move s) false false false (pieces s) moves.

(** A position in which the side to move is checkmated. *)
Definition mated (s : Snapshot) : Pos :=
  mkPos (snapshot_fen s) (to_move s) true false false (pieces s) [].

Definition step (from to : Square) : Move := mkMove from to None.

End Explicit.

(** [chess.square(file_index, rank_index)]. *)
Definition square (file_index rank_index : Z) : Square :=
  rank_index * 8 + file_index.

Definition white (t : PieceType) : Piece := mkPiece t WHITE.
Definition black (t : PieceType) : Piece := mkPiece t BLACK.

(** *** King and rook against king: [k7/8/1K6/8/8/8/8/7R b - - 0 1]

    Black's only legal move is Ka8-b8; White then has nineteen moves, one of
    which, Rh1-h8, is mate. *)

Module KRK.
Import Explicit.

Definition a8 := square 0 7.
Definition b8 := square 1 7.
Definition h8 := square 7 7.
Definition b6 := square 1 5.
Definition h1 := square 7 0.

Definition root_snapshot : Snapshot := {|
  pieces := [(a8, black KING); (b6, white KING); (h1, white ROOK)];
  to_move := BLACK;
  castling := "-";
  en_passant := "-";
  halfmove_clock := 0;
  fullmove_number := 1
|}.

Definition after_Kb8 : Snapshot := snapshot_after root_snapshot (step a8 b8).

(** White's moves after Ka8-b8, king first, then the rook, destinations
    from h8 down to a1. *)
Definition white_king_moves : list Move :=
  step b6 <$> [square 2 5; square 0 5; square 2 4; square 1 4; square 0 4].
Definition white_rook_moves : list Move :=
  step h1 <$> [square 7 6; square 7 5; square 7 4; square 7 3; square 7 2;
               square 7 1; square 6 0; square 5 0; square 4 0; square 3 0;
               square 2 0; square 1 0; square 0 0].

Definition quiet (s : Snapshot) (m : Move) : Move * bool * bool * Pos :=
  (m, false, false, position (snapshot_after s m) []).

Definition white_to_move : Pos :=
  position after_Kb8
    ((quiet after_Kb8 <$> white_king_moves) ++
     (step h1 h8, false, true, mated (snapshot_after after_Kb8 (step h1 h8)))
     :: (quiet after_Kb8 <$> white_rook_moves)).

Definition root : Pos :=
  position root_snapshot [(step a8 b8, false, false, white_to_move)].

End KRK.

(** *** An en-passant capture: [4k3/8/8/3pP3/8/8/8/4K3 w - d6 0 2]

    Black has just played d7-d5; White may answer e5xd6 en passant, which
    lands on the empty square d6 and removes the pawn on d5. *)

Module EnPassant.
Import Explicit.

Definition e1 := square 4 0.
Definition e8 := square 4 7.
Definition e5 := square 4 4.
Definition d5 := square 3 4.
Definition d6 := square 3 5.
Definition e6 := square 4 5.

Definition root_snapshot : Snapshot := {|
  pieces := [(e8, black KING); (d5, black PAWN); (e5, white PAWN);
             (e1, white KING)];
  to_move := WHITE;
  castling := "-";
  en_passant := "d6";
  halfmove_clock := 0;
  fullmove_number := 2
|}.

Definition after_capture : Snapshot := {|
  pieces := [(e8, black KING); (d6, white PAWN); (e1, white KING)];
  to_move := BLACK;
  castling := "-";
  en_passant := "-";
  halfmove_clock := 0;
  fullmove_number := 2
|}.

Definition exd6 : Move := step e5 d6.

Definition quiet (m : Move) : Move * bool * bool * Pos :=
  (m, false, false, position (snapshot_after root_snapshot m) []).

Definition root : Pos :=
  position root_snapshot
    ((quiet <$> (step e1 <$> [square 5 1; square 4 1; square 3 1;
                               square 5 0; square 3 0])) ++
     [quiet (step e5 e6);
      (exd6, true, false, position after_capture [])]).

End EnPassant.

(** *** The first two plies from the initial position

    The twenty first moves of White and, after each of them, the twenty
    replies of Black, in the order python-chess generates them.  None of
    them captures or gives check. *)

Module Opening.
Import Explicit.

Definition back_rank : list PieceType :=
  [ROOK; KNIGHT; BISHOP; QUEEN; KING; BISHOP; KNIGHT; ROOK].

Definition rank_of (r : Z) (c : Color) (ts : list PieceType) : Placement :=
  imap (λ i t, (square (Z.of_nat i) r, mkPiece t c)) ts.

Definition initial_snapshot : Snapshot := {|
  pieces := rank_of 7 BLACK back_rank ++ rank_of 6 BLACK (replicate 8 PAWN)
            ++ rank_of 1 WHITE (replicate 8 PAWN) ++ rank_of 0 WHITE back_rank;
  to_move := WHITE;
  castling := "KQkq";
  en_passant := "-";
  halfmove_clock := 0;
  fullmove_number := 1
|}.

Definition files_down : list Z := [7; 6; 5; 4; 3; 2; 1; 0].

Definition white_first_moves : list Move :=
  [step (square 6 0) (square 7 2); step (square 6 0) (square 5 2);
   step (square 1 0) (square 2 2); step (square 1 0) (square 0 2)]
  ++ ((λ f, step (square f 1) (square f 2)) <$> files_down)
  ++ ((λ f, step (square f 1) (square f 3)) <$> files_down).

Definition black_replies : list Move :=
  [step (square 6 7) (square 7 5); step (square 6 7) (square 5 5);
   step (square 1 7) (square 2 5); step (square 1 7) (square 0 5)]
  ++ ((λ f, step (square f 6) (square f 5)) <$> files_down)
  ++ ((λ f, step (square f 6) (square f 4)) <$> files_down).

Definition after_reply (s : Snapshot) (m : Move) : Move * bool * bool * Pos :=
  (m, false, false, position (snapshot_after s m) []).

Definition after_first (m : Move) : Move * bool * bool * Pos :=
  let s := snapshot_after initial_snapshot m in
  (m, false, false, position s (after_reply s <$> black_replies)).

Definition initial : Pos :=
  position initial_snapshot (after_first <$> white_first_moves).

(** The board after [board.push(first)] on a fresh [chess.Board()]. *)
Definition after (first : Move) : Board rules :=
  push (mkBoard initial [] : Board rules) first.

End Opening.

(** *** A game given by its tree, with short names in place of FEN records

    Black is to move at the root.  The position [X] can be reached both
    through [A] and through [B].  A leaf worth [v] holds [v] white pawns. *)

Module Transposition.
Import Explicit.

Definition pawns (v : Z) : Placement :=
  (λ i, (square i 1, white PAWN)) <$> seqZ 0 v.

Definition leaf (name : string) (c : Color) (v : Z) : Pos :=
  mkPos name c false false false (pawns v) [].

Definition node (name : string) (c : Color)
    (next : list (Move * Pos)) : Pos :=
  mkPos name c false false false []
    ((λ e, (e.1, false, false, e.2)) <$> next).

Definition m1 : Move := step 0 1.
Definition m2 : Move := step 0 2.
Definition m3 : Move := step 0 3.

Definition X : Pos :=
  node "X" BLACK [(m1, leaf "X1" WHITE 3); (m2, leaf "X2" WHITE 0)].
Definition A1 : Pos := node "A1" BLACK [(m1, leaf "A11" WHITE 5)].
Definition C1 : Pos := node "C1" BLACK [(m1, leaf "C11" WHITE 2)].

Definition A : Pos := node "A" WHITE [(m1, A1); (m2, X)].
Definition B : Pos := node "B" WHITE [(m1, X)].
Definition C : Pos := node "C" WHITE [(m1, C1)].

Definition root : Pos := node "root" BLACK [(m1, A); (m2, B); (m3, C)].

End Transposition.

(** *** A game that never ends: one legal move in every position *)

Module Endless.

Definition only_move : Move := mkMove 0 1 None.

(** A board is the number of moves played on it. *)
Definition rules : Rules := {|
  Board := nat;
  legal_moves _ := [only_move];
  push b _ := S b;
  pop b := Nat.pred b;
  turn b := Nat.even b;
  is_checkmate _ := false;
  is_stalemate _ := false;
  is_insufficient_material _ := false;
  is_game_over _ := false;
  piece_at _ _ := None;
  is_capture _ _ := false;
  gives_check _ _ := false;
  fen b := pretty b
|}.

End Endless.

(** ** Predicates used in the statements *)

(** The contribution of one piece to the material count. *)
Definition signed_value (p : Piece) : Z :=
  if color p then piece_values (piece_type p)
  else - piece_values (piece_type p).

(** A list of moves whose keys never increase from left to right. *)
Definition descending (key : Move → Z) (l : list Move) : Prop :=
  StronglySorted (λ x y, key y ≤ key x) l.

(** What a search with window [(alpha, beta)] may return for a node whose
    plain minimax value is [t]: the value itself inside the window, and a
    bound on the same side outside it. *)
Definition within (alpha beta t v : Score) : Prop :=
  (sle t alpha = true → sle v alpha = true) ∧
  (slt alpha t = true → slt t beta = true → v = t) ∧
  (sle beta t = true → sle beta v = true).

(** [t'] extends [t] by entries whose depth component is at most [d]. *)
Definition grows (d : Z) (t t' : gmap Key Score) : Prop :=
  ∀ k, t' !! k = t !! k ∨ (t !! k = None ∧ k.1.2 ≤ d).

(** The state after [board.pop()]. *)
Definition popped {R : Rules} (w : World R) : World R :=
  mkWorld (pop (board w)) (table w).

(** The state after [board.push(m)]. *)
Definition pushed {R : Rules} (m : Move) (w : World R) : World R :=
  mkWorld (push (board w) m) (table w).

(** What is known of a search of a node [d] plies deep that started in [w]
    and returned [v], leaving the state [w']: the board is back, the table
    changed only at keys of the node's tree and, provided the keys of the
    tree are pairwise distinct and none was in the table, [v] is [within]
    the window of the plain minimax value. *)
Definition sound_run {R : Rules} (d : nat) (mp : bool) (alpha beta : Score)
    (w : World R) (v : Score) (w' : World R) : Prop :=
  board w' = board w ∧
  (∀ k, k ∉ tree_keys d (board w) mp → table w' !! k = table w !! k) ∧
  (NoDup (tree_keys d (board w) mp) →
   (∀ k, k ∈ tree_keys d (board w) mp → table w !! k = None) →
   slt alpha beta = true →
   within alpha beta (full_minimax d (board w) mp) v).

Definition sound_rec {R : Rules} (d : nat) (mp : bool)
    (rec : Score → Score → M R Score) : Prop :=
  ∀ a b w v w', rec a b w = (Ok v, w') → sound_run d mp a b w v w'.

(** The depth-0 entries of the table for the replies to [b] hold the static
    value of the position they stand for. *)
Definition leaves_exact {R : Rules} (b : Board R) (t : gmap Key Score) : Prop :=
  ∀ m v, m ∈ legal_moves b →
         t !! (fen (push b m), 0, true) = Some v →
         v = static_eval (push b m).

(** Keys and plain minimax value of the node reached from [b] by [m]. *)
Definition child_keys {R : Rules} (d : nat) (mp : bool) (b : Board R)
    (m : Move) : list Key :=
  tree_keys d (push b m) mp.
Definition child_value {R : Rules} (d : nat) (mp : bool) (b : Board R)
    (m : Move) : Score :=
  full_minimax d (push b m) mp.

(** ** The window: constants, images and drawing (chess.py, lines 7-25 and 112-128)

    What is drawn is kept as the list of calls made on the screen, in the
    order they are made.  [Surface] stands for a pygame surface;
    [image_load] is [image.load], which raises when the file cannot be
    read, and [transform_scale] is [transform.scale]. *)

Definition WIDTH : Z := 512.
Definition HEIGHT : Z := 512.
Definition SQUARE_SIZE : Z := WIDTH / 8.
Definition FPS : Z := 60.

Definition RGB : Type := Z * Z * Z.
Definition LIGHT : RGB := (240, 217, 181).
Definition DARK : RGB := (181, 136, 99).
Definition HIGHLIGHT : RGB := (246, 246, 105).

(** [str.upper()] and [str.lower()] on ASCII text. *)
Definition upper_char (c : Ascii.ascii) : Ascii.ascii :=
  let n := Ascii.nat_of_ascii c in
  if (97 <=? n)%nat && (n <=? 122)%nat then Ascii.ascii_of_nat (n - 32) else c.
Definition lower_char (c : Ascii.ascii) : Ascii.ascii :=
  let n := Ascii.nat_of_ascii c in
  if (65 <=? n)%nat && (n <=? 90)%nat then Ascii.ascii_of_nat (n + 32) else c.
Fixpoint str_upper (s : string) : string :=
  match s with
  | String.EmptyString => String.EmptyString
  | String.String c s' => String.String (upper_char c) (str_upper s')
  end.
Fixpoint str_lower (s : string) : string :=
  match s with
  | String.EmptyString => String.EmptyString
  | String.String c s' => String.String (lower_char c) (str_lower s')
  end.

(** [chess.piece_symbol] and [Piece.symbol()] of python-chess: the letter
    of the piece type, in upper case for a white piece. *)
Definition piece_letter (t : PieceType) : string :=
  match t with
  | PAWN => "p" | KNIGHT => "n" | BISHOP => "b"
  | ROOK => "r" | QUEEN => "q" | KING => "k"
  end.
Definition symbol (p : Piece) : string :=
  if color p then str_upper (piece_letter (piece_type p))
  else piece_letter (piece_type p).

(** The calls made on the screen. *)
Inductive Draw (Surface : Type) : Type :=
  (* draw.rect(screen, colour, Rect(left, top, width, height)) *)
  | FillRect (colour : RGB) (left top width height : Z)
  (* draw.rect(screen, colour, Rect(left, top, width, height), line) *)
  | FrameRect (colour : RGB) (left top width height line : Z)
  (* screen.blit(image, (left, top)) *)
  | Blit (image : Surface) (left top : Z).
Arguments FillRect {_} _ _ _ _ _.
Arguments FrameRect {_} _ _ _ _ _ _.
Arguments Blit {_} _ _ _.

Section Window.
Context {R : Rules}.
Variable Surface : Type.
Variable image_load : string → option Surface.
Variable transform_scale : Surface → Z * Z → Surface.

(** *** [load_images] (chess.py, lines 17-25) *)

(** The two nested [for] loops, flattened: [todo] holds the pairs
    (color, piece) still to come, [IMAGES] the dictionary so far. *)
Fixpoint load_loop (todo : list (string * string))
    (IMAGES : gmap string Surface) : Outcome unit * gmap string Surface :=
  match todo with
  | [] => (Ok (), IMAGES)
  | (color, piece) :: rest =>
      let filename := color +:+ str_upper piece +:+ ".png" in
      match image_load filename with
      | Some image =>
          load_loop rest
            (<[color +:+ piece :=
                 transform_scale image (SQUARE_SIZE, SQUARE_SIZE)]> IMAGES)
      | None => (Raise, IMAGES)
      end
  end.

Definition load_images (IMAGES : gmap string Surface)
    : Outcome unit * gmap string Surface :=
  let pieces := ["p"; "n"; "b"; "r"; "q"; "k"] in
  let colors := ["w"; "b"] in
  load_loop (color ← colors; piece ← pieces; [(color, piece)]) IMAGES.

(** *** [draw_board] (chess.py, lines 113-118) *)

Definition draw_board : list (Draw Surface) :=
  let colors := [LIGHT; DARK] in
  r ← seqZ 0 8;
  c ← seqZ 0 8;
  let color := colors !!! Z.to_nat ((r + c) `mod` 2) in
  [FillRect color (c * SQUARE_SIZE) (r * SQUARE_SIZE) SQUARE_SIZE SQUARE_SIZE].

(** *** [draw_pieces] (chess.py, lines 120-128) *)

(** [IMAGES[key]] raises when the key is missing; the calls made before
    that stay made. *)
Fixpoint draw_pieces_loop (IMAGES : gmap string Surface) (b : Board R)
    (squares : list Square) : Outcome unit * list (Draw Surface) :=
  match squares with
  | [] => (Ok (), [])
  | square :: rest =>
      match piece_at b square with
      | Some piece =>
          let row := 7 - square / 8 in
          let col := square `mod` 8 in
          let color := if color piece then "w" else "b" in
          let key := color +:+ str_lower (symbol piece) in
          match IMAGES !! key with
          | Some image =>
              let '(o, calls) := draw_pieces_loop IMAGES b rest in
              (o, Blit image (col * SQUARE_SIZE) (row * SQUARE_SIZE) :: calls)
          | None => (Raise, [])
          end
      | None => draw_pieces_loop IMAGES b rest
      end
  end.

Definition draw_pieces (IMAGES : gmap string Surface) (b : Board R)
    : Outcome unit * list (Draw Surface) :=
  draw_pieces_loop IMAGES b SQUARES.

End Window.

Arguments draw_board : clear implicits.

(** ** The game loop (chess.py, lines 131-201) *)

(** The events [main] tells apart. *)
Inductive Event : Type :=
  | QUIT
  | MOUSEBUTTONDOWN (pos : Z * Z)
  | OtherEvent.

#[global] Instance Event_eq_dec : EqDecision Event.
Proof. solve_decision. Defined.

(** The lines [main] prints. *)
Inductive Printed : Type :=
  (* print("Game Over:", board.result()) *)
  | GameOver (result : string)
  (* print(f"AI plays: {best_move}") *)
  | AIPlays (best_move : Move)
  (* print("AI has no legal moves.") *)
  | NoLegalMoves.

(** [bool(move)] of python-chess: only the null move is false. *)
Definition move_bool (m : Move) : bool :=
  bool_decide (from_square m ≠ 0) || bool_decide (to_square m ≠ 0)
  || bool_decide (is_Some (promotion m)).

Section Game.
Context {R : Rules}.
(** [board.result()]. *)
Variable result : Board R → string.

(** The local variables of [main], the board and the table it shares with
    the search, and what has been printed so far. *)
Record App : Type := mkApp {
  world : World R;
  selected_square : option Square;
  running : bool;
  thinking : bool;
  printed : list Printed
}.

(** [for e in event.get(): ...] *)
Fixpoint handle_events (events : list Event) (a : App) : App :=
  match events with
  | [] => a
  | e :: rest =>
      match e with
      | QUIT =>
          handle_events rest
            (mkApp (world a) (selected_square a) false (thinking a) (printed a))
      | MOUSEBUTTONDOWN (x, y) =>
          if thinking a then handle_events rest a
          else
            let col := x / SQUARE_SIZE in
            let row := y / SQUARE_SIZE in
            let sq := square col (7 - row) in
            match selected_square a with
            | None =>
                match piece_at (board (world a)) sq with
                | Some p =>
                    if color p then
                      handle_events rest
                        (mkApp (world a) (Some sq) (running a) (thinking a)
                           (printed a))
                    else handle_events rest a
                | None => handle_events rest a
                end
            | Some selected =>
                let move := mkMove selected sq None in
                if bool_decide (move ∈ legal_moves (board (world a))) then
                  let w := pushed move (world a) in
                  if is_game_over (board w) then
                    (* running = False; break *)
                    mkApp w None false (thinking a)
                      (printed a ++ [GameOver (result (board w))])
                  else
                    handle_events rest
                      (mkApp w None (running a) true (printed a))
                else
                  handle_events rest
                    (mkApp (world a) None (running a) (thinking a) (printed a))
            end
      | OtherEvent => handle_events rest a
      end
  end.

(** [if thinking: ...]; [fuel] is the number of [minimax] frames the
    interpreter allows. *)
Definition ai_turn (fuel : nat) (a : App) : Outcome unit * App :=
  if thinking a then
    match find_best_move fuel 5 (world a) with
    | (Ok best_move, w) =>
        let '(w, out) :=
          match best_move with
          | Some m =>
              if move_bool m then (pushed m w, [AIPlays m])
              else (w, [NoLegalMoves])
          | None => (w, [NoLegalMoves])
          end in
        if is_game_over (board w) then
          (Ok (), mkApp w (selected_square a) false false
                    (printed a ++ out ++ [GameOver (result (board w))]))
        else
          (Ok (), mkApp w (selected_square a) (running a) false
                    (printed a ++ out))
    | (Raise, w) =>
        (Raise, mkApp w (selected_square a) (running a) (thinking a)
                  (printed a))
    end
  else (Ok (), a).

(** The part of the loop body that changes the state. *)
Definition play (fuel : nat) (events : list Event) (a : App)
    : Outcome unit * App :=
  ai_turn fuel (handle_events events a).

Section Screen.
Variable Surface : Type.

(** The rest of the loop body: what one pass draws. *)
Definition render (IMAGES : gmap string Surface) (a : App)
    : Outcome unit * list (Draw Surface) :=
  match draw_pieces Surface IMAGES (board (world a)) with
  | (Ok _, pieces) =>
      let highlight :=
        match selected_square a with
        | Some selected =>
            let row := 7 - selected / 8 in
            let col := selected `mod` 8 in
            [FrameRect HIGHLIGHT (col * SQUARE_SIZE) (row * SQUARE_SIZE)
               SQUARE_SIZE SQUARE_SIZE 5]
        | None => []
        end in
      (Ok (), draw_board Surface ++ pieces ++ highlight)
  | (Raise, pieces) => (Raise, draw_board Surface ++ pieces)
  end.

(** [while running: ...], fed the event lists of successive passes; the
    result is the state when the loop ends, the events run out, or an
    exception leaves [main], with everything drawn on the way. *)
Fixpoint main_loop (fuel : nat) (IMAGES : gmap string Surface)
    (passes : list (list Event)) (a : App)
    : Outcome unit * App * list (list (Draw Surface)) :=
  match passes with
  | [] => (Ok (), a, [])
  | events :: rest =>
      if running a then
        match play fuel events a with
        | (Ok _, a') =>
            match render IMAGES a' with
            | (Ok _, calls) =>
                let '(o, a'', drawn) := main_loop fuel IMAGES rest a' in
                (o, a'', calls :: drawn)
            | (Raise, calls) => (Raise, a', [calls])
            end
        | (Raise, a') => (Raise, a', [])
        end
      else (Ok (), a, [])
  end.

End Screen.

(** The state in which [main] enters its loop, on the board [chess.Board()]
    and the table as the searches so far have left it. *)
Definition main_start (w : World R) : App := mkApp w None true false [].

End Game.

Arguments App : clear implicits.

(** The boards reached from [b0] by pushing legal moves. *)
Inductive played {R : Rules} (b0 : Board R) : Board R → Prop :=
  | played_none : played b0 b0
  | played_push b m : played b0 b → m ∈ legal_moves b → played b0 (push b m).

(** The point (x, y) lies inside the rectangle. *)
Definition inside (x y left top width height : Z) : Prop :=
  left ≤ x ∧ x < left + width ∧ top ≤ y ∧ y < top + height.

#[global] Instance inside_dec x y left top width height :
  Decision (inside x y left top width height).
Proof. unfold inside. apply _. Defined.

(** The filled or framed rectangle of a call holds the point (x, y). *)
Definition covers {Surface : Type} (x y : Z) (d : Draw Surface) : bool :=
  match d with
  | FillRect _ l t w h
  | FrameRect _ l t w h _ => bool_decide (inside x y l t w h)
  | Blit _ _ _ => false
  end.

(** What holds of the state of [main], [b0] being the board it started on:
    the board was reached by legal moves, a selected square holds a white
    piece, and nothing is selected while the AI is to think. *)
Definition fair {R : Rules} (b0 : Board R) (a : App R) : Prop :=
  played b0 (board (world a)) ∧
  (∀ s, selected_square a = Some s →
        ∃ p, piece_at (board (world a)) s = Some p ∧ color p = WHITE) ∧
  (thinking a = true → selected_square a = None).

(** The loop goes on only while the game does. *)
Definition alive {R : Rules} (a : App R) : Prop :=
  running a = true → is_game_over (board (world a)) = false.

(** A concrete screen for the explicit positions: a surface is the name of
    its file, every file can be read. *)
Module Files.
Definition image_load (filename : string) : option string := Some filename.
Definition transform_scale (image : string) (size : Z * Z) : string := image.
Definition IMAGES : gmap string string :=
  (load_images string image_load transform_scale ∅).2.
Definition result (b : Board Explicit.rules) : string := "*".
End Files.

(** *** Rook and king against king, Black to move:
    [7r/8/8/8/8/1k6/8/K7 b - - 0 1]

    Black has twenty moves.  Two give check: Rh8-a8, after which White
    plays Ka1-b1, and Rh8-h1, which is mate. *)

Module MateInOne.
Import Explicit.

Definition h8 := square 7 7.
Definition b3 := square 1 2.
Definition a1 := square 0 0.
Definition a8 := square 0 7.
Definition h1 := square 7 0.

Definition root_snapshot : Snapshot := {|
  pieces := [(h8, black ROOK); (b3, black KING); (a1, white KING)];
  to_move := BLACK;
  castling := "-";
  en_passant := "-";
  halfmove_clock := 0;
  fullmove_number := 1
|}.

Definition quiet (m : Move) : Move * bool * bool * Pos :=
  (m, false, false, position (snapshot_after root_snapshot m) []).

(** The rook first, destinations from g8 down to h1, then the king. *)
Definition root : Pos :=
  position root_snapshot
    ((quiet <$> (step h8 <$> [square 6 7; square 5 7; square 4 7; square 3 7;
                              square 2 7; square 1 7])) ++
     (step h8 a8, false, true,
      position (snapshot_after root_snapshot (step h8 a8)) [])
     :: (quiet <$> (step h8 <$> [square 7 6; square 7 5; square 7 4;
                                 square 7 3; square 7 2; square 7 1])) ++
     (step h8 h1, false, true,
      mated (snapshot_after root_snapshot (step h8 h1)))
     :: (quiet <$> (step b3 <$> [square 2 3; square 1 3; square 0 3;
                                 square 2 2; square 0 2; square 2 1]))).

End MateInOne.

(** *** A pawn about to promote: [8/P7/8/7k/8/8/8/4K3 w - - 0 1]

    The king's five moves come first, as python-chess generates them; the
    pawn has four moves, one for each piece it can become, and with a
    bishop or a knight neither side has mating material left. *)

Module Promotion.
Import Explicit.

Definition a7 := square 0 6.
Definition a8 := square 0 7.
Definition h5 := square 7 4.
Definition e1 := square 4 0.

Definition root_snapshot : Snapshot := {|
  pieces := [(a7, white PAWN); (h5, black KING); (e1, white KING)];
  to_move := WHITE;
  castling := "-";
  en_passant := "-";
  halfmove_clock := 0;
  fullmove_number := 1
|}.

Definition quiet (m : Move) : Move * bool * bool * Pos :=
  (m, false, false, position (snapshot_after root_snapshot m) []).

(** A position with insufficient material on both sides. *)
Definition dead (m : Move) : Move * bool * bool * Pos :=
  let s := snapshot_after root_snapshot m in
  (m, false, false,
   mkPos (snapshot_fen s) (to_move s) false false true (pieces s) []).

Definition root : Pos :=
  position root_snapshot
    ((quiet <$> (step e1 <$> [square 5 1; square 4 1; square 3 1;
                              square 5 0; square 3 0])) ++
     (quiet <$> [mkMove a7 a8 (Some QUEEN); mkMove a7 a8 (Some ROOK)]) ++
     (dead <$> [mkMove a7 a8 (Some BISHOP); mkMove a7 a8 (Some KNIGHT)])).

End Promotion.

(** *** Queen and pawn against pawn, Black to move, on two boards

    [8/8/7k/3p3P/8/1K6/6Q1/8 b - - 0 1] and
    [7k/8/8/3p3P/8/1K6/6Q1/8 b - - 0 1] differ by the square of the black
    king, h6 or h8; from both the king can go to h7, which gives the same
    position, FEN record included.  Each board is written out with its
    moves and White's replies to them, in the order in which python-chess
    generates them (the king's moves before the queen's, the pawn's last;
    destinations from h8 down to a1): the two plies a search of depth 2
    reads.  One reply is mate, Qg2-g6 after d5-d4 with the king on h6. *)

Module QueenEnding.
Import Explicit.

Definition f1 := square 5 0.
Definition g1 := square 6 0.
Definition h1 := square 7 0.
Definition a2 := square 0 1.
Definition b2 := square 1 1.
Definition c2 := square 2 1.
Definition d2 := square 3 1.
Definition e2 := square 4 1.
Definition f2 := square 5 1.
Definition g2 := square 6 1.
Definition h2 := square 7 1.
Definition a3 := square 0 2.
Definition b3 := square 1 2.
Definition c3 := square 2 2.
Definition f3 := square 5 2.
Definition g3 := square 6 2.
Definition h3 := square 7 2.
Definition a4 := square 0 3.
Definition b4 := square 1 3.
Definition c4 := square 2 3.
Definition d4 := square 3 3.
Definition e4 := square 4 3.
Definition g4 := square 6 3.
Definition d5 := square 3 4.
Definition g5 := square 6 4.
Definition h5 := square 7 4.
Definition c6 := square 2 5.
Definition g6 := square 6 5.
Definition h6 := square 7 5.
Definition b7 := square 1 6.
Definition g7 := square 6 6.
Definition h7 := square 7 6.
Definition a8 := square 0 7.
Definition g8 := square 6 7.
Definition h8 := square 7 7.

Definition first_snapshot : Snapshot := {|
  pieces := [(h6, black KING); (d5, black PAWN); (h5, white PAWN);
             (b3, white KING); (g2, white QUEEN)];
  to_move := BLACK;
  castling := "-";
  en_passant := "-";
  halfmove_clock := 0;
  fullmove_number := 1
|}.

Definition second_snapshot : Snapshot := {|
  pieces := [(h8, black KING); (d5, black PAWN); (h5, white PAWN);
             (b3, white KING); (g2, white QUEEN)];
  to_move := BLACK;
  castling := "-";
  en_passant := "-";
  halfmove_clock := 0;
  fullmove_number := 1
|}.

Definition Kh7 : Snapshot := snapshot_after first_snapshot (step h6 h7).
Definition Kxh5 : Snapshot := snapshot_after first_snapshot (step h6 h5).
Definition first_d4 : Snapshot := snapshot_after first_snapshot (step d5 d4).
Definition second_d4 : Snapshot :=
  snapshot_after second_snapshot (step d5 d4).

(** A reply, with [is_capture] and [gives_check], after which the game goes
    on. *)
Definition leaf (s : Snapshot) (e : Move * bool * bool)
    : Move * bool * bool * Pos :=
  (e.1.1, e.1.2, e.2, position (snapshot_after s e.1.1) []).

Definition after_Kh7 : Pos :=
  position Kh7
   ((leaf Kh7 <$>
     [(step b3 b4, false, false); (step b3 a4, false, false);
      (step b3 c3, false, false); (step b3 a3, false, false);
      (step b3 c2, false, false); (step b3 b2, false, false);
      (step b3 a2, false, false); (step g2 g8, false, true);
      (step g2 g7, false, true); (step g2 g6, false, true);
      (step g2 g5, false, false); (step g2 d5, true, false);
      (step g2 g4, false, false); (step g2 e4, false, true);
      (step g2 h3, false, false); (step g2 g3, false, false);
      (step g2 f3, false, false); (step g2 h2, false, false);
      (step g2 f2, false, false); (step g2 e2, false, false);
      (step g2 d2, false, false); (step g2 c2, false, true);
      (step g2 b2, false, false); (step g2 a2, false, false);
      (step g2 h1, false, false); (step g2 g1, false, false);
      (step g2 f1, false, false); (step h5 h6, false, false)])).

Definition after_Kxh5 : Pos :=
  position Kxh5
   ((leaf Kxh5 <$>
     [(step b3 b4, false, false); (step b3 a4, false, false);
      (step b3 c3, false, false); (step b3 a3, false, false);
      (step b3 c2, false, false); (step b3 b2, false, false);
      (step b3 a2, false, false); (step g2 g8, false, false);
      (step g2 g7, false, false); (step g2 g6, false, true);
      (step g2 g5, false, true); (step g2 d5, true, true);
      (step g2 g4, false, true); (step g2 e4, false, false);
      (step g2 h3, false, true); (step g2 g3, false, false);
      (step g2 f3, false, true); (step g2 h2, false, true);
      (step g2 f2, false, false); (step g2 e2, false, true);
      (step g2 d2, false, false); (step g2 c2, false, false);
      (step g2 b2, false, false); (step g2 a2, false, false);
      (step g2 h1, false, true); (step g2 g1, false, false);
      (step g2 f1, false, false)])).

Definition after_d4 : Pos :=
  position first_d4
   ((leaf first_d4 <$>
     [(step b3 c4, false, false); (step b3 b4, false, false);
      (step b3 a4, false, false); (step b3 a3, false, false);
      (step b3 c2, false, false); (step b3 b2, false, false);
      (step b3 a2, false, false); (step g2 g8, false, false);
      (step g2 a8, false, false); (step g2 g7, false, true);
      (step g2 b7, false, false)])
    ++ (step g2 g6, false, true, mated (snapshot_after first_d4 (step g2 g6)))
    ::
    (leaf first_d4 <$>
     [(step g2 c6, false, true); (step g2 g5, false, true);
      (step g2 d5, false, false); (step g2 g4, false, false);
      (step g2 e4, false, false); (step g2 h3, false, false);
      (step g2 g3, false, false); (step g2 f3, false, false);
      (step g2 h2, false, false); (step g2 f2, false, false);
      (step g2 e2, false, false); (step g2 d2, false, true);
      (step g2 c2, false, false); (step g2 b2, false, false);
      (step g2 a2, false, false); (step g2 h1, false, false);
      (step g2 g1, false, false); (step g2 f1, false, false)])).

Definition second_after_d4 : Pos :=
  position second_d4
   ((leaf second_d4 <$>
     [(step b3 c4, false, false); (step b3 b4, false, false);
      (step b3 a4, false, false); (step b3 a3, false, false);
      (step b3 c2, false, false); (step b3 b2, false, false);
      (step b3 a2, false, false); (step g2 g8, false, true);
      (step g2 a8, false, true); (step g2 g7, false, true);
      (step g2 b7, false, false); (step g2 g6, false, false);
      (step g2 c6, false, false); (step g2 g5, false, false);
      (step g2 d5, false, false); (step g2 g4, false, false);
      (step g2 e4, false, false); (step g2 h3, false, false);
      (step g2 g3, false, false); (step g2 f3, false, false);
      (step g2 h2, false, false); (step g2 f2, false, false);
      (step g2 e2, false, false); (step g2 d2, false, false);
      (step g2 c2, false, false); (step g2 b2, false, false);
      (step g2 a2, false, false); (step g2 h1, false, false);
      (step g2 g1, false, false); (step g2 f1, false, false);
      (step h5 h6, false, false)])).

Definition first : Pos :=
  position first_snapshot
    [(step h6 h7, false, false, after_Kh7);
     (step h6 h5, true, false, after_Kxh5);
     (step d5 d4, false, false, after_d4)].

Definition second : Pos :=
  position second_snapshot
    [(step h8 h7, false, false, after_Kh7);
     (step d5 d4, false, false, second_after_d4)].

End QueenEnding.

(** * Properties *)

(** ** The order on scores *)

Ltac score_cases :=
  repeat match goal with
         | x : Score |- _ => destruct x
         end;
  unfold within, sle, smax, smin, slt in *; simpl in *;
  repeat match goal with
         | H : context [Z.ltb ?a ?b] |- _ => destruct (Z.ltb_spec a b); simpl in H
         | |- context [Z.ltb ?a ?b] => destruct (Z.ltb_spec a b); simpl
         end;
  try (intuition (simplify_eq; try done; try (f_equal; lia); try lia)).

Lemma slt_irrefl (a : Score) : slt a a = false.
Proof. score_cases. Qed.

Lemma smax_least (a : Score) : smax NegInf a = a.
Proof. score_cases. Qed.

Lemma smin_greatest (a : Score) : smin PosInf a = a.
Proof. score_cases. Qed.

Lemma sle_Fin (x y : Z) : sle (Fin x) (Fin y) = true ↔ x ≤ y.
Proof.
  unfold sle. simpl. rewrite negb_true_iff. apply Z.ltb_ge.
Qed.

Lemma sle_PosInf_Fin (z : Z) : sle PosInf (Fin z) = false.
Proof. done. Qed.

Lemma foldl_smax_ge (l : list Score) (a : Score) :
  sle a (foldl smax a l) = true.
Proof.
  revert a. induction l as [|x l IH]; intros a; simpl.
  - score_cases.
  - specialize (IH (smax a x)). revert IH.
    generalize (foldl smax (smax a x) l). intros r. score_cases.
Qed.

Lemma foldl_smin_le (l : list Score) (a : Score) :
  sle (foldl smin a l) a = true.
Proof.
  revert a. induction l as [|x l IH]; intros a; simpl.
  - score_cases.
  - specialize (IH (smin a x)). revert IH.
    generalize (foldl smin (smin a x) l). intros r. score_cases.
Qed.

Lemma smax_assoc a b c : smax (smax a b) c = smax a (smax b c).
Proof. score_cases. Qed.
Lemma smin_assoc a b c : smin (smin a b) c = smin a (smin b c).
Proof. score_cases. Qed.
Lemma smax_neg_r a : smax a NegInf = a.
Proof. score_cases. Qed.
Lemma smin_pos_r a : smin a PosInf = a.
Proof. score_cases. Qed.
Lemma within_refl a b t : within a b t t.
Proof. score_cases. Qed.

Lemma max_continue a be t val :
  within a be t val → slt a be = true → sle be (smax a val) = false →
  smax a val = smax a t ∧ slt (smax a val) be = true.
Proof. intros; score_cases. Qed.

Lemma max_prune a be t val :
  within a be t val → slt a be = true → sle be (smax a val) = true →
  sle be val = true ∧ sle be t = true.
Proof. intros; score_cases. Qed.

Lemma max_pruned_within A0 me be val F :
  sle be val = true → sle be F = true → slt (smax A0 me) be = true →
  within A0 be F (smax me val).
Proof. intros; score_cases. Qed.

Lemma sle_smax_trans be t T F :
  sle be t = true → sle (smax T t) F = true → sle be F = true.
Proof. intros; score_cases. Qed.

Lemma max_done A0 me T be :
  smax A0 me = smax A0 T → slt (smax A0 me) be = true → within A0 be T me.
Proof. intros; score_cases. Qed.

Lemma min_continue al b t val :
  within al b t val → slt al b = true → sle (smin b val) al = false →
  smin b val = smin b t ∧ slt al (smin b val) = true.
Proof. intros; score_cases. Qed.

Lemma min_prune al b t val :
  within al b t val → slt al b = true → sle (smin b val) al = true →
  sle val al = true ∧ sle t al = true.
Proof. intros; score_cases. Qed.

Lemma min_pruned_within B0 me al val F :
  sle val al = true → sle F al = true → slt al (smin B0 me) = true →
  within al B0 F (smin me val).
Proof. intros; score_cases. Qed.

Lemma sle_smin_trans al t T F :
  sle t al = true → sle F (smin T t) = true → sle F al = true.
Proof. intros; score_cases. Qed.

Lemma min_done B0 me T al :
  smin B0 me = smin B0 T → slt al (smin B0 me) = true → within al B0 T me.
Proof. intros; score_cases. Qed.

Lemma root_compare bv t val :
  (slt NegInf bv = true → within NegInf bv t val) →
  slt val bv = slt t bv ∧ (slt t bv = true → val = t ∧ smin bv val = val).
Proof. intros; score_cases. Qed.

(** ** Running the read-only parts of the core *)

Section Queries.
Context {R : Rules}.
Implicit Types (w : World R) (b : Board R).

Lemma material_loop_run sqs score w :
  material_loop sqs score w =
  (Ok (score + foldr Z.add 0 (signed_value <$> omap (piece_at (board w)) sqs)), w).
Proof.
  revert score. induction sqs as [|sq sqs IH]; intros score; simpl.
  - unfold ret. do 2 f_equal. lia.
  - unfold bind, ask at 1. destruct (piece_at (board w) sq) as [p|]; simpl.
    + rewrite IH. do 2 f_equal. symmetry. apply Z.add_assoc.
    + apply IH.
Qed.

Lemma signed_sum_split (c : Color) (ps : list Piece) :
  foldr Z.add 0 (signed_value <$> ps) =
  foldr Z.add 0 ((λ p, piece_values (piece_type p)) <$> filter (λ p, color p = WHITE) ps)
  - foldr Z.add 0 ((λ p, piece_values (piece_type p)) <$> filter (λ p, color p = BLACK) ps).
Proof.
  induction ps as [|p ps IH]; csimpl; [done|].
  rewrite !filter_cons, IH. unfold signed_value, WHITE, BLACK.
  destruct (color p); repeat case_decide; try congruence; csimpl; lia.
Qed.

Lemma material_loop_balance w :
  material_loop SQUARES 0 w = (Ok (material_balance (board w)), w).
Proof.
  rewrite material_loop_run. do 2 f_equal.
  unfold material_balance, side_material, pieces_on.
  rewrite (signed_sum_split WHITE). lia.
Qed.

Lemma evaluate_board_run w :
  evaluate_board w = (Ok (static_eval (board w)), w).
Proof.
  unfold evaluate_board, static_eval, bind, ask, ret.
  destruct (is_checkmate (board w)); [done|].
  destruct (is_stalemate (board w)); cbn -[material_loop]; [done|].
  destruct (is_insufficient_material (board w)); cbn -[material_loop]; [done|].
  by rewrite material_loop_balance.
Qed.

Lemma score_move_run m w :
  score_move m w = (Ok (heuristic (board w) m), w).
Proof.
  unfold score_move, heuristic, destination_bonus, promotion_bonus,
    check_bonus, value_at, bind, ask, ret.
  destruct (is_capture (board w) m), (promotion m),
    (gives_check (board w) m); simpl; do 2 f_equal;
    repeat case_match; lia.
Qed.

Lemma keyed_run ms w :
  keyed ms w = (Ok ((λ m, (heuristic (board w) m, m)) <$> ms), w).
Proof.
  induction ms as [|m ms IH]; simpl; [done|].
  unfold bind. rewrite score_move_run, IH. done.
Qed.

Lemma order_moves_run w :
  order_moves w = (Ok (ordered (board w)), w).
Proof.
  unfold order_moves, bind, ask. rewrite keyed_run. done.
Qed.

(** *** The stable descending sort *)

Lemma insert_desc_perm x l : insert_desc x l ≡ₚ x :: l.
Proof.
  induction l as [|y l IH]; simpl; [done|].
  case_match; [done|]. rewrite IH. apply Permutation_swap.
Qed.

Lemma sort_desc_perm l : sort_desc l ≡ₚ l.
Proof.
  induction l as [|x l IH]; simpl; [done|].
  rewrite insert_desc_perm. by f_equiv.
Qed.

Lemma insert_desc_sorted x l :
  StronglySorted (λ a b : Z * Move, b.1 ≤ a.1) l →
  StronglySorted (λ a b : Z * Move, b.1 ≤ a.1) (insert_desc x l).
Proof.
  induction 1 as [|y l Hs IH Hy]; simpl.
  - repeat constructor.
  - destruct (Z.leb_spec y.1 x.1).
    + constructor; [by constructor|].
      constructor; [done|].
      eapply Forall_impl; [exact Hy|]. simpl. intros. lia.
    + constructor; [done|].
      rewrite insert_desc_perm. constructor; [lia|done].
Qed.

Lemma sort_desc_sorted l :
  StronglySorted (λ a b : Z * Move, b.1 ≤ a.1) (sort_desc l).
Proof.
  induction l as [|x l IH]; simpl; [constructor|].
  by apply insert_desc_sorted.
Qed.

Lemma sort_desc_keys (key : Move → Z) (ms : list Move) :
  Forall (λ e : Z * Move, e.1 = key e.2) (sort_desc ((λ m, (key m, m)) <$> ms)).
Proof.
  rewrite sort_desc_perm. apply Forall_fmap, Forall_forall. done.
Qed.

Lemma ordered_perm b : ordered b ≡ₚ legal_moves b.
Proof.
  unfold ordered. rewrite sort_desc_perm, <- list_fmap_compose.
  by rewrite list_fmap_id.
Qed.

Lemma ordered_descending b : descending (heuristic b) (ordered b).
Proof.
  unfold descending, ordered.
  pose proof (sort_desc_keys (heuristic b) (legal_moves b)) as Hk.
  pose proof (sort_desc_sorted ((λ m, (heuristic b m, m)) <$> legal_moves b)) as Hs.
  induction Hs as [|e l Hs IH He]; csimpl; [constructor|].
  apply Forall_cons in Hk as [Hk1 Hk]. constructor; [by apply IH|].
  rewrite Forall_fmap, Forall_forall.
  rewrite Forall_forall in He, Hk. intros y Hy. simpl.
  rewrite <- Hk1, <- (Hk y Hy). by apply He.
Qed.

Lemma elem_of_ordered b m : m ∈ ordered b ↔ m ∈ legal_moves b.
Proof. by rewrite ordered_perm. Qed.

End Queries.

(** ** One step of each loop, and one frame of [minimax] *)

Section Steps.
Context {R : Rules}.
Implicit Types (w : World R) (rec : Score → Score → M R Score).

Lemma max_loop_cons rec m ms max_eval alpha beta w :
  max_loop rec (m :: ms) max_eval alpha beta w =
  match rec alpha beta (pushed m w) with
  | (Ok val, w1) =>
      if sle beta (smax alpha val) then (Ok (smax max_eval val), popped w1)
      else max_loop rec ms (smax max_eval val) (smax alpha val) beta (popped w1)
  | (Raise, w1) => (Raise, w1)
  end.
Proof.
  simpl. unfold bind, board_push, pushed. simpl.
  destruct (rec alpha beta _) as [[val|] w1]; [|done].
  unfold board_pop, popped. simpl. by destruct (sle _ _).
Qed.

Lemma min_loop_cons rec m ms min_eval alpha beta w :
  min_loop rec (m :: ms) min_eval alpha beta w =
  match rec alpha beta (pushed m w) with
  | (Ok val, w1) =>
      if sle (smin beta val) alpha then (Ok (smin min_eval val), popped w1)
      else min_loop rec ms (smin min_eval val) alpha (smin beta val) (popped w1)
  | (Raise, w1) => (Raise, w1)
  end.
Proof.
  simpl. unfold bind, board_push, pushed. simpl.
  destruct (rec alpha beta _) as [[val|] w1]; [|done].
  unfold board_pop, popped. simpl. by destruct (sle _ _).
Qed.

Lemma root_loop_cons rec m ms best_move best_val alpha beta w :
  root_loop rec (m :: ms) best_move best_val alpha beta w =
  match rec alpha beta (pushed m w) with
  | (Ok val, w1) =>
      if slt val best_val
      then root_loop rec ms (Some m) val alpha (smin beta val) (popped w1)
      else root_loop rec ms best_move best_val alpha beta (popped w1)
  | (Raise, w1) => (Raise, w1)
  end.
Proof.
  simpl. unfold bind, board_push, pushed. simpl.
  destruct (rec alpha beta _) as [[val|] w1]; [|done].
  unfold board_pop, popped. simpl. by destruct (slt _ _).
Qed.

(** The state after [transposition_table[key] = v]. *)
Lemma minimax_frame fuel depth alpha beta mp w :
  minimax (S fuel) depth alpha beta mp w =
  let key : Key := (fen (board w), depth, mp) in
  match table w !! key with
  | Some v => (Ok v, w)
  | None =>
      if (depth =? 0) || is_game_over (board w) then
        (Ok (static_eval (board w)),
         mkWorld (board w) (<[key := static_eval (board w)]> (table w)))
      else
        match (if mp
               then max_loop (λ a b, minimax fuel (depth - 1) a b false)
                      (ordered (board w)) NegInf alpha beta
               else min_loop (λ a b, minimax fuel (depth - 1) a b true)
                      (ordered (board w)) PosInf alpha beta) w with
        | (Ok v, w') => (Ok v, mkWorld (board w') (<[key := v]> (table w')))
        | (Raise, w') => (Raise, w')
        end
  end.
Proof.
  cbn [minimax]. unfold bind at 1 2. unfold ask at 1, table_get at 1.
  cbn zeta. destruct (table w !! _) as [v|]; [done|].
  unfold bind at 1.
  destruct (depth =? 0); simpl.
  - unfold bind, ret, table_set. by rewrite evaluate_board_run.
  - destruct (is_game_over (board w)).
    + unfold bind, ret, table_set. by rewrite evaluate_board_run.
    + destruct mp; unfold bind at 1; rewrite order_moves_run;
        unfold bind, table_set, ret.
      * by destruct (max_loop _ _ _ _ _ w) as [[v|] w'].
      * by destruct (min_loop _ _ _ _ _ w) as [[v|] w'].
Qed.

Lemma minimax_no_fuel depth alpha beta mp w :
  minimax 0 depth alpha beta mp w = (Raise, w).
Proof. done. Qed.

Lemma search_root_run fuel depth w :
  search_root fuel depth w =
  root_loop (λ a b, minimax fuel (depth - 1) a b true)
    (ordered (board w)) None PosInf NegInf PosInf w.
Proof. unfold search_root, bind. by rewrite order_moves_run. Qed.

Lemma find_best_move_run fuel depth w :
  find_best_move fuel depth w =
  match search_root fuel depth w with
  | (Ok r, w') => (Ok r.1, w')
  | (Raise, w') => (Raise, w')
  end.
Proof. done. Qed.

End Steps.

(** ** The transposition table only grows *)

Section Growth.
Context {R : Rules}.
Implicit Types (w : World R) (d : Z).

Lemma grows_refl d (t : gmap Key Score) : grows d t t.
Proof. intros k. by left. Qed.

Lemma grows_trans d (t1 t2 t3 : gmap Key Score) :
  grows d t1 t2 → grows d t2 t3 → grows d t1 t3.
Proof.
  intros H12 H23 k. destruct (H23 k) as [E|[E ?]], (H12 k) as [E'|[E' ?]].
  - left. exact (eq_trans E E').
  - right. done.
  - right. split; [exact (eq_trans (eq_sym E') E)|done].
  - right. done.
Qed.

Lemma grows_mono d (d' : Z) (t t' : gmap Key Score) :
  d ≤ d' → grows d t t' → grows d' t t'.
Proof. intros Hd H k. destruct (H k) as [?|[? ?]]; [by left|right]. split; [done|lia]. Qed.

Lemma grows_subseteq d (t t' : gmap Key Score) : grows d t t' → t ⊆ t'.
Proof.
  intros H. apply map_subseteq_spec. intros k v Hk.
  destruct (H k) as [E|[E ?]].
  - exact (eq_trans E Hk).
  - pose proof (eq_trans (eq_sym E) Hk). discriminate.
Qed.

Lemma grows_insert d (t t' : gmap Key Score) (k : Key) (v : Score) :
  t !! k = None → k.1.2 = d → grows (d - 1) t t' →
  grows d t (<[k := v]> t').
Proof.
  intros Hk Hd H k'. destruct (decide (k = k')) as [<-|Hne].
  - right. split; [done|lia].
  - rewrite lookup_insert_ne by done.
    destruct (H k') as [?|[? ?]]; [by left|right]. split; [done|lia].
Qed.

Section Loops.
Variables (d : Z) (rec : Score → Score → M R Score).
Hypothesis rec_grows : ∀ a b w, grows d (table w) (table (rec a b w).2).

Lemma max_loop_grows ms max_eval alpha beta w :
  grows d (table w) (table (max_loop rec ms max_eval alpha beta w).2).
Proof.
  revert max_eval alpha w.
  induction ms as [|m ms IH]; intros max_eval alpha w.
  - apply grows_refl.
  - rewrite max_loop_cons. pose proof (rec_grows alpha beta (pushed m w)) as H.
    destruct (rec alpha beta (pushed m w)) as [[val|] w1]; simpl in H; [|done].
    destruct (sle _ _); [done|].
    eapply grows_trans; [exact H|]. apply (IH _ _ (popped w1)).
Qed.

Lemma min_loop_grows ms min_eval alpha beta w :
  grows d (table w) (table (min_loop rec ms min_eval alpha beta w).2).
Proof.
  revert min_eval beta w.
  induction ms as [|m ms IH]; intros min_eval beta w.
  - apply grows_refl.
  - rewrite min_loop_cons. pose proof (rec_grows alpha beta (pushed m w)) as H.
    destruct (rec alpha beta (pushed m w)) as [[val|] w1]; simpl in H; [|done].
    destruct (sle _ _); [done|].
    eapply grows_trans; [exact H|]. apply (IH _ _ (popped w1)).
Qed.

Lemma root_loop_grows ms best_move best_val alpha beta w :
  grows d (table w)
    (table (root_loop rec ms best_move best_val alpha beta w).2).
Proof.
  revert best_move best_val beta w.
  induction ms as [|m ms IH]; intros best_move best_val beta w.
  - apply grows_refl.
  - rewrite root_loop_cons. pose proof (rec_grows alpha beta (pushed m w)) as H.
    destruct (rec alpha beta (pushed m w)) as [[val|] w1]; simpl in H; [|done].
    destruct (slt _ _);
      (eapply grows_trans; [exact H|]; apply (IH _ _ _ (popped w1))).
Qed.
End Loops.

Lemma minimax_grows fuel depth alpha beta mp w :
  grows depth (table w) (table (minimax fuel depth alpha beta mp w).2).
Proof.
  revert depth alpha beta mp w.
  induction fuel as [|fuel IH]; intros depth alpha beta mp w.
  - apply grows_refl.
  - rewrite minimax_frame. cbn zeta.
    destruct (table w !! _) as [v|] eqn:Hk; [apply grows_refl|].
    destruct (_ || _).
    + simpl. apply grows_insert; [done..|apply grows_refl].
    + assert (grows (depth - 1) (table w)
        (table ((if mp
                 then max_loop (λ a b, minimax fuel (depth - 1) a b false)
                        (ordered (board w)) NegInf alpha beta
                 else min_loop (λ a b, minimax fuel (depth - 1) a b true)
                        (ordered (board w)) PosInf alpha beta) w).2)) as H.
      { destruct mp; [apply max_loop_grows|apply min_loop_grows];
          intros; apply IH. }
      destruct (_ w) as [[v|] w']; simpl in *.
      * by apply grows_insert.
      * eapply grows_mono; [|exact H]. lia.
Qed.

Lemma search_root_grows fuel depth w :
  grows (depth - 1) (table w) (table (search_root fuel depth w).2).
Proof.
  rewrite search_root_run. apply root_loop_grows. intros. apply minimax_grows.
Qed.

Lemma find_best_move_grows fuel depth w :
  grows (depth - 1) (table w) (table (find_best_move fuel depth w).2).
Proof.
  rewrite find_best_move_run. pose proof (search_root_grows fuel depth w) as H.
  by destruct (search_root fuel depth w) as [[r|] w'].
Qed.

End Growth.

(** ** Every move pushed by a search that returns is popped *)

Section Restoration.
Context {R : Rules}.
Hypothesis law : pop_undoes_push R.
Implicit Types (w : World R).

Section Loops.
Variables (rec : Score → Score → M R Score).
Hypothesis rec_restores :
  ∀ a b w v w', rec a b w = (Ok v, w') → board w' = board w.

Lemma iteration_restores (m : Move) a b w v w1 :
  m ∈ legal_moves (board w) →
  rec a b (pushed m w) = (Ok v, w1) → board (popped w1) = board w.
Proof.
  intros Hm Hrun. apply rec_restores in Hrun. simpl in *.
  rewrite Hrun. by apply law.
Qed.

Lemma max_loop_restores ms max_eval alpha beta w v w' :
  (∀ m, m ∈ ms → m ∈ legal_moves (board w)) →
  max_loop rec ms max_eval alpha beta w = (Ok v, w') →
  board w' = board w.
Proof.
  revert max_eval alpha w.
  induction ms as [|m ms IH]; intros max_eval alpha w Hms Hrun.
  - by inversion Hrun.
  - rewrite max_loop_cons in Hrun.
    destruct (rec alpha beta (pushed m w)) as [[val|] w1] eqn:Hrec; [|done].
    apply iteration_restores in Hrec; [|apply Hms; left].
    destruct (sle _ _).
    + inversion Hrun; by subst.
    + apply IH in Hrun; [congruence|].
      intros m' Hm'. rewrite Hrec. apply Hms. by right.
Qed.

Lemma min_loop_restores ms min_eval alpha beta w v w' :
  (∀ m, m ∈ ms → m ∈ legal_moves (board w)) →
  min_loop rec ms min_eval alpha beta w = (Ok v, w') →
  board w' = board w.
Proof.
  revert min_eval beta w.
  induction ms as [|m ms IH]; intros min_eval beta w Hms Hrun.
  - by inversion Hrun.
  - rewrite min_loop_cons in Hrun.
    destruct (rec alpha beta (pushed m w)) as [[val|] w1] eqn:Hrec; [|done].
    apply iteration_restores in Hrec; [|apply Hms; left].
    destruct (sle _ _).
    + inversion Hrun; by subst.
    + apply IH in Hrun; [congruence|].
      intros m' Hm'. rewrite Hrec. apply Hms. by right.
Qed.

Lemma root_loop_restores ms best_move best_val alpha beta w r w' :
  (∀ m, m ∈ ms → m ∈ legal_moves (board w)) →
  root_loop rec ms best_move best_val alpha beta w = (Ok r, w') →
  board w' = board w.
Proof.
  revert best_move best_val beta w.
  induction ms as [|m ms IH]; intros best_move best_val beta w Hms Hrun.
  - by inversion Hrun.
  - rewrite root_loop_cons in Hrun.
    destruct (rec alpha beta (pushed m w)) as [[val|] w1] eqn:Hrec; [|done].
    apply iteration_restores in Hrec; [|apply Hms; left].
    destruct (slt _ _); (apply IH in Hrun; [congruence|]);
      intros m' Hm'; rewrite Hrec; apply Hms; by right.
Qed.
End Loops.

Lemma minimax_restores fuel depth alpha beta mp w v w' :
  minimax fuel depth alpha beta mp w = (Ok v, w') → board w' = board w.
Proof.
  revert depth alpha beta mp w v w'.
  induction fuel as [|fuel IH]; intros depth alpha beta mp w v w' Hrun; [done|].
  rewrite minimax_frame in Hrun. cbn zeta in Hrun.
  destruct (table w !! _) as [c|]; [by inversion Hrun|].
  destruct (_ || _); [by inversion Hrun|].
  destruct (_ w) as [[u|] w1] eqn:Hloop; [|done].
  inversion Hrun; subst; simpl.
  destruct mp;
    [eapply max_loop_restores in Hloop|eapply min_loop_restores in Hloop];
    try done; try (intros; by eapply IH);
    intros m Hm; by apply elem_of_ordered.
Qed.

Lemma search_root_restores fuel depth w r w' :
  search_root fuel depth w = (Ok r, w') → board w' = board w.
Proof.
  rewrite search_root_run. intros Hrun.
  eapply root_loop_restores in Hrun; [done| |].
  - intros. by eapply minimax_restores.
  - intros m Hm. by apply elem_of_ordered.
Qed.

End Restoration.

(** ** Searches of non-negative depth return *)

Section Termination.
Context {R : Rules}.
Implicit Types (w : World R).

Section Loops.
Variables (rec : Score → Score → M R Score).
Hypothesis rec_returns : ∀ a b w, ∃ v w', rec a b w = (Ok v, w').

Lemma max_loop_returns ms max_eval alpha beta w :
  ∃ v w', max_loop rec ms max_eval alpha beta w = (Ok v, w').
Proof.
  revert max_eval alpha w.
  induction ms as [|m ms IH]; intros max_eval alpha w; [by eexists _, _|].
  rewrite max_loop_cons.
  destruct (rec_returns alpha beta (pushed m w)) as (val & w1 & ->).
  destruct (sle _ _); [by eexists _, _|apply IH].
Qed.

Lemma min_loop_returns ms min_eval alpha beta w :
  ∃ v w', min_loop rec ms min_eval alpha beta w = (Ok v, w').
Proof.
  revert min_eval beta w.
  induction ms as [|m ms IH]; intros min_eval beta w; [by eexists _, _|].
  rewrite min_loop_cons.
  destruct (rec_returns alpha beta (pushed m w)) as (val & w1 & ->).
  destruct (sle _ _); [by eexists _, _|apply IH].
Qed.

Lemma root_loop_returns ms best_move best_val alpha beta w :
  ∃ r w', root_loop rec ms best_move best_val alpha beta w = (Ok r, w').
Proof.
  revert best_move best_val beta w.
  induction ms as [|m ms IH]; intros best_move best_val beta w;
    [by eexists _, _|].
  rewrite root_loop_cons.
  destruct (rec_returns alpha beta (pushed m w)) as (val & w1 & ->).
  destruct (slt _ _); apply IH.
Qed.
End Loops.

Lemma minimax_returns fuel depth alpha beta mp w :
  0 ≤ depth → (Z.to_nat depth < fuel)%nat →
  ∃ v w', minimax fuel depth alpha beta mp w = (Ok v, w').
Proof.
  revert depth alpha beta mp w.
  induction fuel as [|fuel IH]; intros depth alpha beta mp w Hd Hf; [lia|].
  rewrite minimax_frame. cbn zeta.
  destruct (table w !! _) as [c|]; [by eexists _, _|].
  destruct (Z.eqb_spec depth 0) as [->|Hne]; simpl; [by eexists _, _|].
  destruct (is_game_over _); [by eexists _, _|].
  assert (∀ p a b w0, ∃ v w', minimax fuel (depth - 1) a b p w0 = (Ok v, w'))
    as Hrec by (intros; apply IH; lia).
  destruct mp.
  - destruct (max_loop_returns (λ a b, minimax fuel (depth - 1) a b false)
                (Hrec false) (ordered (board w)) NegInf alpha beta w)
      as (v & w' & ->).
    by eexists _, _.
  - destruct (min_loop_returns (λ a b, minimax fuel (depth - 1) a b true)
                (Hrec true) (ordered (board w)) PosInf alpha beta w)
      as (v & w' & ->).
    by eexists _, _.
Qed.

Lemma search_root_returns fuel depth w :
  1 ≤ depth → (Z.to_nat depth ≤ fuel)%nat →
  ∃ r w', search_root fuel depth w = (Ok r, w').
Proof.
  intros Hd Hf. rewrite search_root_run. apply root_loop_returns.
  intros. apply minimax_returns; lia.
Qed.

End Termination.

(** ** Alpha-beta pruning against plain minimax

    As long as no node of the searched tree finds its key in the table, the
    value a windowed search returns stands in the relation [within] to the
    plain minimax value of the node. *)

Section Pruning.
Context {R : Rules}.
Hypothesis law : pop_undoes_push R.
Implicit Types (w : World R).

Section Loops.
Variables (d : nat) (mp : bool) (rec : Score → Score → M R Score).
Variable (b : Board R).
Hypothesis rec_sound : sound_rec d mp rec.

Abbreviation K := (child_keys d mp b).
Abbreviation tv := (child_value d mp b).

(** One iteration: push, recursive call, pop. *)
Lemma iteration_sound (m : Move) (ms : list Move) a be w val w1 :
  board w = b → m ∈ legal_moves b →
  rec a be (pushed m w) = (Ok val, w1) →
  board (popped w1) = b ∧
  (∀ k, k ∉ K m → table (popped w1) !! k = table w !! k) ∧
  (NoDup (mjoin (K <$> m :: ms)) →
   (∀ k, k ∈ mjoin (K <$> m :: ms) → table w !! k = None) →
   (slt a be = true → within a be (tv m) val) ∧
   NoDup (mjoin (K <$> ms)) ∧
   (∀ k, k ∈ mjoin (K <$> ms) → table (popped w1) !! k = None)).
Proof.
  intros Hb Hm Hrun. apply rec_sound in Hrun as (Hb1 & Hf1 & Hv1).
  simpl in *. rewrite Hb in *. split; [|split].
  - rewrite Hb1. by apply law.
  - exact Hf1.
  - csimpl. intros Hnd Hnone.
    apply NoDup_app in Hnd as (Hnd1 & Hdisj & Hnd2).
    split; [|split; [done|]].
    + intros Hlt. apply Hv1; [done| |done].
      intros k Hk. apply Hnone. apply elem_of_app. by left.
    + intros k Hk. rewrite Hf1.
      * apply Hnone. apply elem_of_app. by right.
      * intros Hk1. by apply (Hdisj k).
Qed.

Lemma max_loop_sound (A0 be : Score) ms max_eval a T w v w' :
  board w = b → (∀ m, m ∈ ms → m ∈ legal_moves b) →
  max_loop rec ms max_eval a be w = (Ok v, w') →
  board w' = b ∧
  (∀ k, k ∉ mjoin (K <$> ms) → table w' !! k = table w !! k) ∧
  (NoDup (mjoin (K <$> ms)) →
   (∀ k, k ∈ mjoin (K <$> ms) → table w !! k = None) →
   a = smax A0 max_eval → a = smax A0 T → slt a be = true →
   within A0 be (foldl smax T (tv <$> ms)) v).
Proof.
  revert max_eval a T w.
  induction ms as [|m ms IH]; intros max_eval a T w Hb Hms Hrun.
  - inversion Hrun; subst. split; [done|]. split; [done|].
    intros _ _ Ha HT Hlt. simpl. subst a. by apply max_done.
  - rewrite max_loop_cons in Hrun.
    destruct (rec a be (pushed m w)) as [[val|] w1] eqn:Hrec; [|done].
    eapply (iteration_sound m ms) in Hrec as (Hb1 & Hf1 & Hv1);
      [|done|apply Hms; left].
    destruct (sle be (smax a val)) eqn:Hprune.
    + inversion Hrun; subst v w'. split; [done|]. split.
      * intros k Hk. apply Hf1. intros Hk1. apply Hk. csimpl.
        apply elem_of_app. by left.
      * intros Hnd Hnone Ha HT Hlt.
        destruct (Hv1 Hnd Hnone) as (Hw & _ & _). specialize (Hw Hlt).
        destruct (max_prune _ _ _ _ Hw Hlt Hprune) as [Hval Ht].
        csimpl. apply max_pruned_within; [done| |by rewrite <- Ha].
        eapply sle_smax_trans; [exact Ht|]. apply foldl_smax_ge.
    + apply (IH _ _ (smax T (tv m))) in Hrun as (Hb' & Hf' & Hv');
        [|done|intros; apply Hms; by right].
      split; [done|]. split.
      * intros k Hk. rewrite Hf'.
        -- apply Hf1. intros Hk1. apply Hk. csimpl. apply elem_of_app. by left.
        -- intros Hk1. apply Hk. csimpl. apply elem_of_app. by right.
      * intros Hnd Hnone Ha HT Hlt.
        destruct (Hv1 Hnd Hnone) as (Hw & Hnd' & Hnone').
        specialize (Hw Hlt).
        destruct (max_continue _ _ _ _ Hw Hlt Hprune) as [Heq Hlt'].
        csimpl. apply Hv'; [done|done| | |done].
        -- rewrite Ha. apply smax_assoc.
        -- rewrite Heq, HT. apply smax_assoc.
Qed.

Lemma min_loop_sound (al B0 : Score) ms min_eval be T w v w' :
  board w = b → (∀ m, m ∈ ms → m ∈ legal_moves b) →
  min_loop rec ms min_eval al be w = (Ok v, w') →
  board w' = b ∧
  (∀ k, k ∉ mjoin (K <$> ms) → table w' !! k = table w !! k) ∧
  (NoDup (mjoin (K <$> ms)) →
   (∀ k, k ∈ mjoin (K <$> ms) → table w !! k = None) →
   be = smin B0 min_eval → be = smin B0 T → slt al be = true →
   within al B0 (foldl smin T (tv <$> ms)) v).
Proof.
  revert min_eval be T w.
  induction ms as [|m ms IH]; intros min_eval be T w Hb Hms Hrun.
  - inversion Hrun; subst. split; [done|]. split; [done|].
    intros _ _ Ha HT Hlt. simpl. subst be. by apply min_done.
  - rewrite min_loop_cons in Hrun.
    destruct (rec al be (pushed m w)) as [[val|] w1] eqn:Hrec; [|done].
    eapply (iteration_sound m ms) in Hrec as (Hb1 & Hf1 & Hv1);
      [|done|apply Hms; left].
    destruct (sle (smin be val) al) eqn:Hprune.
    + inversion Hrun; subst v w'. split; [done|]. split.
      * intros k Hk. apply Hf1. intros Hk1. apply Hk. csimpl.
        apply elem_of_app. by left.
      * intros Hnd Hnone Ha HT Hlt.
        destruct (Hv1 Hnd Hnone) as (Hw & _ & _). specialize (Hw Hlt).
        destruct (min_prune _ _ _ _ Hw Hlt Hprune) as [Hval Ht].
        csimpl. apply min_pruned_within; [done| |by rewrite <- Ha].
        eapply sle_smin_trans; [exact Ht|]. apply foldl_smin_le.
    + apply (IH _ _ (smin T (tv m))) in Hrun as (Hb' & Hf' & Hv');
        [|done|intros; apply Hms; by right].
      split; [done|]. split.
      * intros k Hk. rewrite Hf'.
        -- apply Hf1. intros Hk1. apply Hk. csimpl. apply elem_of_app. by left.
        -- intros Hk1. apply Hk. csimpl. apply elem_of_app. by right.
      * intros Hnd Hnone Ha HT Hlt.
        destruct (Hv1 Hnd Hnone) as (Hw & Hnd' & Hnone').
        specialize (Hw Hlt).
        destruct (min_continue _ _ _ _ Hw Hlt Hprune) as [Heq Hlt'].
        csimpl. apply Hv'; [done|done| | |done].
        -- rewrite Ha. apply smin_assoc.
        -- rewrite Heq, HT. apply smin_assoc.
Qed.

End Loops.

Lemma tree_keys_head (d : nat) (b : Board R) (mp : bool) :
  (fen b, Z.of_nat d, mp) ∈ tree_keys d b mp.
Proof. destruct d; left. Qed.

Lemma minimax_sound (d : nat) :
  ∀ fuel mp, @sound_rec R d mp (λ a b, minimax fuel (Z.of_nat d) a b mp).
Proof.
  induction d as [|d IH]; intros fuel mp a be w v w' Hrun;
    (destruct fuel as [|fuel]; [done|]);
    rewrite minimax_frame in Hrun; cbn zeta in Hrun;
    (destruct (table w !! _) as [c|] eqn:Hhit;
     [inversion Hrun; subst; split; [done|]; split; [done|];
      intros _ Hnone _; rewrite Hnone in Hhit; [done|];
      apply tree_keys_head |]).
  - simpl in Hrun. inversion Hrun; subst. split; [done|]. split.
    + simpl. intros k Hk. apply lookup_insert_ne. intros <-. apply Hk. left.
    + intros _ _ _. apply within_refl.
  - replace (Z.of_nat (S d) =? 0) with false in Hrun
      by (symmetry; apply Z.eqb_neq; lia).
    replace (Z.of_nat (S d) - 1) with (Z.of_nat d) in Hrun by lia.
    cbn [orb] in Hrun.
    destruct (is_game_over (board w)) eqn:Hover.
    + inversion Hrun; subst. split; [done|]. split.
      * intros k Hk. simpl. apply lookup_insert_ne.
        intros <-. apply Hk, tree_keys_head.
      * intros _ _ _. simpl. rewrite Hover. apply within_refl.
    + destruct mp.
      * destruct (max_loop _ _ _ _ _ w) as [[u|] w1] eqn:Hloop; [|done].
        inversion Hrun; subst v w'.
        eapply (max_loop_sound d false _ (board w) (IH fuel false) a be)
          with (T := NegInf) in Hloop as (Hb & Hf & Hv);
          [|done|intros m Hm; by apply elem_of_ordered].
        split; [done|]. split.
        -- intros k Hk. simpl. rewrite lookup_insert_ne.
           ++ apply Hf. intros Hk'. apply Hk. simpl. rewrite Hover. by right.
           ++ intros <-. apply Hk, tree_keys_head.
        -- intros Hnd Hnone Hlt. simpl in Hnd, Hnone |- *.
           rewrite Hover in *. apply NoDup_cons in Hnd as [Hnk Hnd].
           apply Hv; [done| |by rewrite smax_neg_r..|done].
           intros k Hk. apply Hnone. by right.
      * destruct (min_loop _ _ _ _ _ w) as [[u|] w1] eqn:Hloop; [|done].
        inversion Hrun; subst v w'.
        eapply (min_loop_sound d true _ (board w) (IH fuel true) a be)
          with (T := PosInf) in Hloop as (Hb & Hf & Hv);
          [|done|intros m Hm; by apply elem_of_ordered].
        split; [done|]. split.
        -- intros k Hk. simpl. rewrite lookup_insert_ne.
           ++ apply Hf. intros Hk'. apply Hk. simpl. rewrite Hover. by right.
           ++ intros <-. apply Hk, tree_keys_head.
        -- intros Hnd Hnone Hlt. simpl in Hnd, Hnone |- *.
           rewrite Hover in *. apply NoDup_cons in Hnd as [Hnk Hnd].
           apply Hv; [done| |by rewrite smin_pos_r..|done].
           intros k Hk. apply Hnone. by right.
Qed.

Lemma root_loop_sound (d : nat) (rec : Score → Score → M R Score)
    (b : Board R) ms best_move best_val w r w' :
  sound_rec d true rec →
  board w = b → (∀ m, m ∈ ms → m ∈ legal_moves b) →
  NoDup (mjoin ((λ m, tree_keys d (push b m) true) <$> ms)) →
  (∀ k, k ∈ mjoin ((λ m, tree_keys d (push b m) true) <$> ms) →
        table w !! k = None) →
  root_loop rec ms best_move best_val NegInf best_val w = (Ok r, w') →
  r = pick_lowest ((λ m, (m, full_minimax d (push b m) true)) <$> ms)
        best_move best_val.
Proof.
  intros Hrec. revert best_move best_val w.
  induction ms as [|m ms IH];
    intros best_move best_val w Hb Hms Hnd Hnone Hrun.
  - by inversion Hrun.
  - rewrite root_loop_cons in Hrun.
    destruct (rec NegInf best_val (pushed m w)) as [[val|] w1] eqn:Hcall;
      [|done].
    eapply (iteration_sound d true rec b Hrec m ms) in Hcall
      as (Hb1 & _ & Hv1); [|done|apply Hms; left].
    destruct (Hv1 Hnd Hnone) as (Hw & Hnd' & Hnone').
    destruct (root_compare best_val (full_minimax d (push b m) true) val Hw)
      as [Hcmp Hval].
    csimpl. rewrite <- Hcmp. destruct (slt val best_val) eqn:Hlt.
    + destruct (Hval (eq_sym Hcmp)) as [-> Hbeta]. rewrite Hbeta in Hrun.
      apply IH in Hrun; [done..| |done|done]. intros; apply Hms; by right.
    + apply IH in Hrun; [done..| |done|done]. intros; apply Hms; by right.
Qed.

Lemma search_root_sound (d : nat) (fuel : nat) w r w' :
  (1 ≤ d)%nat →
  NoDup (search_keys (board w) d) →
  (∀ k, k ∈ search_keys (board w) d → table w !! k = None) →
  search_root fuel (Z.of_nat d) w = (Ok r, w') →
  r = full_search_root (board w) d.
Proof.
  intros Hd Hnd Hnone. rewrite search_root_run.
  replace (Z.of_nat d - 1) with (Z.of_nat (d - 1)) by lia.
  intros Hrun. eapply root_loop_sound in Hrun; try done.
  - apply minimax_sound.
  - intros m Hm. by apply elem_of_ordered.
Qed.

End Pruning.

(** ** What the selector returns *)

Section Selector.
Context {R : Rules}.
Implicit Types (w : World R) (rec : Score → Score → M R Score).

(** The move kept by the root loop is the one it started with or one of
    the moves it went through. *)
Lemma root_loop_member rec ms best_move best_val alpha beta w r w' :
  root_loop rec ms best_move best_val alpha beta w = (Ok r, w') →
  r.1 = best_move ∨ ∃ m, m ∈ ms ∧ r.1 = Some m.
Proof.
  revert best_move best_val beta w.
  induction ms as [|m ms IH]; intros best_move best_val beta w Hrun.
  - inversion Hrun. by left.
  - rewrite root_loop_cons in Hrun.
    destruct (rec alpha beta (pushed m w)) as [[val|] w1]; [|done].
    destruct (slt val best_val); apply IH in Hrun as [Hr|(m' & Hm' & Hr)].
    + right. exists m. split; [left|done].
    + right. exists m'. split; [by right|done].
    + by left.
    + right. exists m'. split; [by right|done].
Qed.

Lemma find_best_move_legal fuel depth w m w' :
  find_best_move fuel depth w = (Ok (Some m), w') →
  m ∈ legal_moves (board w).
Proof.
  rewrite find_best_move_run.
  destruct (search_root fuel depth w) as [[r|] w1] eqn:Hrun; [|done].
  intros Hm. inversion Hm as [[Hr Hw]]. rewrite search_root_run in Hrun.
  apply root_loop_member in Hrun as [Hnone|(m' & Hm' & Hsome)].
  - congruence.
  - apply elem_of_ordered. congruence.
Qed.

Lemma ordered_nil (b : Board R) : legal_moves b = [] → ordered b = [].
Proof. intros H. apply Permutation_nil_r. by rewrite ordered_perm, H. Qed.

Lemma find_best_move_no_moves fuel depth w :
  legal_moves (board w) = [] → find_best_move fuel depth w = (Ok None, w).
Proof.
  intros H. rewrite find_best_move_run, search_root_run, ordered_nil; done.
Qed.

(** *** Lowest score of a list *)

Lemma pick_lowest_spec (scored : list (Move * Score)) best_move best_val :
  let r := pick_lowest scored best_move best_val in
  (∀ e, e ∈ scored → sle r.2 e.2 = true) ∧
  ((r = (best_move, best_val)) ∨
   (slt r.2 best_val = true ∧ ∃ m, r.1 = Some m ∧ (m, r.2) ∈ scored)).
Proof.
  revert best_move best_val.
  induction scored as [|[m v] scored IH]; intros best_move best_val; simpl.
  - split; [|by left]. intros e He. by apply elem_of_nil in He.
  - destruct (slt v best_val) eqn:Hlt.
    + destruct (IH (Some m) v) as [Hmin Hcase]. split.
      * intros e [->|He]%elem_of_cons; [|by apply Hmin]. simpl.
        destruct Hcase as [->|[Hlt' _]]; simpl.
        -- clear. score_cases.
        -- revert Hlt'. generalize (pick_lowest scored (Some m) v).2.
           clear. intros r. score_cases.
      * right. destruct Hcase as [->|(Hlt' & m' & Hm' & Hin)]; simpl.
        -- split; [done|]. exists m. split; [done|left].
        -- split.
           ++ revert Hlt Hlt'. generalize (pick_lowest scored (Some m) v).2.
              clear. intros r. score_cases.
           ++ exists m'. split; [done|by right].
    + destruct (IH best_move best_val) as [Hmin Hcase]. split.
      * intros e [->|He]%elem_of_cons; [|by apply Hmin]. simpl.
        destruct Hcase as [->|[Hlt' _]]; simpl.
        -- revert Hlt. clear. score_cases.
        -- revert Hlt Hlt'. generalize (pick_lowest scored best_move best_val).2.
           clear. intros r. score_cases.
      * destruct Hcase as [->|(Hlt' & m' & Hm' & Hin)]; [by left|right].
        split; [done|]. exists m'. split; [done|by right].
Qed.

(** *** Searches of depth 1: every reply is a leaf *)

Lemma leaf_call fuel alpha beta mp w :
  minimax (S fuel) 0 alpha beta mp w =
  match table w !! (fen (board w), 0, mp) with
  | Some c => (Ok c, w)
  | None =>
      (Ok (static_eval (board w)),
       mkWorld (board w)
         (<[(fen (board w), 0, mp) := static_eval (board w)]> (table w)))
  end.
Proof. by rewrite minimax_frame. Qed.

Lemma root_loop_depth_one (b : Board R) fuel ms best_move best_val beta w :
  pop_undoes_push R →
  (∀ m m', m ∈ legal_moves b → m' ∈ legal_moves b →
           fen (push b m) = fen (push b m') →
           static_eval (push b m) = static_eval (push b m')) →
  board w = b → (∀ m, m ∈ ms → m ∈ legal_moves b) →
  leaves_exact b (table w) →
  ∃ w',
    root_loop (λ a b, minimax (S fuel) 0 a b true) ms
      best_move best_val NegInf beta w =
    (Ok (pick_lowest ((λ m, (m, static_eval (push b m))) <$> ms)
           best_move best_val), w') ∧
    board w' = b.
Proof.
  intros law Hfen. revert best_move best_val beta w.
  induction ms as [|m ms IH]; intros best_move best_val beta w Hb Hms Hleaf.
  - by eexists.
  - rewrite root_loop_cons, leaf_call. simpl. rewrite Hb.
    assert (m ∈ legal_moves b) as Hm by (apply Hms; left).
    assert (∀ m', m' ∈ ms → m' ∈ legal_moves b) as Hms'
      by (intros; apply Hms; by right).
    destruct (table w !! _) as [c|] eqn:Hhit.
    + apply Hleaf in Hhit as ->; [|done].
      assert (board (popped (pushed m w)) = b) as Hb'
        by (simpl; rewrite Hb; by apply law).
      destruct (slt _ best_val); by apply IH.
    + set (w1 := mkWorld (push b m) _).
      assert (board (popped w1) = b) as Hb' by (simpl; by apply law).
      assert (leaves_exact b (table (popped w1))) as Hleaf'.
      { intros m' v Hm' Hv. simpl in Hv.
        destruct (decide (fen (push b m) = fen (push b m'))) as [E|E].
        - rewrite <- E, lookup_insert_eq in Hv. inversion Hv. by apply Hfen.
        - rewrite lookup_insert_ne in Hv by congruence. by apply Hleaf. }
      destruct (slt _ best_val); by apply IH.
Qed.

End Selector.

(** ** The concrete collaborators *)

Lemma explicit_pop_push : pop_undoes_push Explicit.rules.
Proof.
  intros [p h] m _. simpl. unfold Explicit.tree_push, Explicit.tree_pop. simpl.
  by destruct (Explicit.entry p m).
Qed.

Lemma endless_pop_push : pop_undoes_push Endless.rules.
Proof. by intros b m _. Qed.


(** * The properties stated by the specification *)

(** ** Position evaluator *)

(** C3.  [evaluate_board] returns the negative infinity when the position is
    checkmate with White to move and the positive infinity when it is
    checkmate with Black to move; failing that, zero when the position is
    stalemate or has insufficient material; and otherwise the material
    balance: the sum, over the occupied squares, of the value of the piece
    standing there, 1 for a pawn, 3 for a knight, 3 for a bishop, 5 for a
    rook, 9 for a queen and 0 for a king, added for a white piece and
    subtracted for a black one. *)
Theorem evaluate_board_value (R : Rules) (w : World R) :
  let value (t : PieceType) : Z :=
    match t with
    | PAWN => 1 | KNIGHT => 3 | BISHOP => 3
    | ROOK => 5 | QUEEN => 9 | KING => 0
    end in
  let signed (p : Piece) : Z :=
    if color p then value (piece_type p) else - value (piece_type p) in
  (evaluate_board w).1 =
  Ok (if is_checkmate (board w)
      then (if turn (board w) then NegInf else PosInf)
      else if is_stalemate (board w) || is_insufficient_material (board w)
           then Fin 0
           else Fin (foldr Z.add 0
                       (signed <$> omap (piece_at (board w)) SQUARES))).
Proof.
  intros value signed. unfold evaluate_board, bind, ask, ret.
  destruct (is_checkmate (board w)); [done|].
  destruct (is_stalemate (board w)); cbn -[material_loop]; [done|].
  destruct (is_insufficient_material (board w)); cbn -[material_loop];
    [done|].
  rewrite material_loop_run. cbn [fst].
  generalize (omap (piece_at (board w)) SQUARES). intros ps.
  replace (signed_value <$> ps) with (signed <$> ps); [by rewrite Z.add_0_l|].
  apply list_fmap_ext. intros _ [t c] _.
  unfold signed_value, signed, value. by destruct c, t.
Qed.

(** C8.  [evaluate_board] is pure: it leaves the board and the table as they
    were, and evaluating again, in the state the first evaluation left,
    yields the same score. *)
Theorem evaluate_board_pure (R : Rules) (w : World R) :
  (evaluate_board w).2 = w ∧
  (evaluate_board (evaluate_board w).2).1 = (evaluate_board w).1.
Proof. by rewrite !evaluate_board_run. Qed.

(** ** Move orderer *)

(** C5, as stated, fails on an en-passant capture: the captured pawn does
    not stand on the destination square, [score_move] finds no victim there
    and scores the capture -1 where the specification gives it
    10 * 1 - 1 = 9; the list [order_moves] returns ends with that capture
    and is not in descending order of the specified heuristic. *)
Lemma en_passant_bonus_differs :
  let w := Explicit.start EnPassant.root in
  EnPassant.exd6 ∈ legal_moves (board w) ∧
  is_capture (board w) EnPassant.exd6 = true ∧
  captured_piece (board w) EnPassant.exd6 = Some (black PAWN) ∧
  spec_heuristic (board w) EnPassant.exd6 = 9 ∧
  (score_move EnPassant.exd6 w).1 = Ok (-1) ∧
  ∃ l, (order_moves w).1 = Ok l ∧ last l = Some EnPassant.exd6 ∧
       ¬ descending (spec_heuristic (board w)) l.
Proof.
  cbv zeta. split; [|split; [|split; [|split; [|split]]]].
  - apply (bool_decide_unpack _). by vm_compute.
  - by vm_compute.
  - by vm_compute.
  - by vm_compute.
  - by vm_compute.
  - eexists. split; [by vm_compute|]. split; [done|].
    unfold descending. apply (bool_decide_eq_false_1 _). by vm_compute.
Qed.

(** C5, amended.  [order_moves] leaves the state untouched and returns the
    legal moves, each once, in descending order of the score [score_move]
    gives them: 10 times the value of the piece standing on the destination
    square (0 if that square is empty) minus the value of the moving piece
    when the move is a capture, plus 8 for a promotion, plus 5 for a move
    that gives check. *)
Theorem order_moves_sorted (R : Rules) (w : World R) :
  ∃ l, order_moves w = (Ok l, w) ∧
       l ≡ₚ legal_moves (board w) ∧
       descending
         (λ m, (if is_capture (board w) m
                then 10 * value_at (board w) (to_square m)
                     - value_at (board w) (from_square m)
                else 0)
               + (match promotion m with Some _ => 8 | None => 0 end)
               + (if gives_check (board w) m then 5 else 0)) l ∧
       ∀ m, score_move m w = (Ok (heuristic (board w) m), w).
Proof.
  exists (ordered (board w)). split; [apply order_moves_run|].
  split; [apply ordered_perm|]. split; [apply ordered_descending|].
  intros m. apply score_move_run.
Qed.

(** ** Transposition cache *)

(** C6.  The table comes first and last in [minimax].  If the key of the
    node (FEN record, depth, maximizing flag) is in the table when the call
    is made, whatever the depth and whether or not the game is over, the
    call returns the stored value, leaves board and table as they were, and
    needs no frame beyond its own.  Whenever a call returns, the value it
    returns is stored under the key of the node.  And a call does return,
    for every depth [>= 0], once the interpreter allows [depth + 1] nested
    frames, so that the value is there afterwards whether the node was a
    leaf, was searched to the end or was cut off; at a leaf whose key is
    missing that value is the evaluation of the board, and the table is
    the old one with that entry added. *)
Theorem minimax_cache_protocol (R : Rules) (w : World R) (fuel : nat)
    (depth : Z) (alpha beta : Score) (maximizing_player : bool) :
  (Z.to_nat depth < fuel)%nat →
  let key : Key := (fen (board w), depth, maximizing_player) in
  (∀ c fuel', table w !! key = Some c →
     minimax (S fuel') depth alpha beta maximizing_player w = (Ok c, w)) ∧
  (∀ fuel' v w',
     minimax fuel' depth alpha beta maximizing_player w = (Ok v, w') →
     table w' !! key = Some v) ∧
  (0 ≤ depth →
   ∃ v w', minimax fuel depth alpha beta maximizing_player w = (Ok v, w') ∧
           table w' !! key = Some v) ∧
  (table w !! key = None →
   depth = 0 ∨ is_game_over (board w) = true →
   minimax fuel depth alpha beta maximizing_player w =
   (Ok (static_eval (board w)),
    mkWorld (board w) (<[key := static_eval (board w)]> (table w)))).
Proof.
  intros Hfuel key.
  assert (∀ fuel' v w',
            minimax fuel' depth alpha beta maximizing_player w = (Ok v, w') →
            table w' !! key = Some v) as Hstored.
  { intros fuel' v w'. destruct fuel' as [|fuel']; [done|].
    rewrite minimax_frame. cbn zeta. fold key.
    destruct (table w !! key) as [c|] eqn:Hhit.
    - intros [= <- <-]. done.
    - destruct (_ || _).
      + intros [= <- <-]. cbn [table]. apply lookup_insert_eq.
      + destruct (_ w) as [[u|] w1]; [|done].
        intros [= <- <-]. cbn [table]. apply lookup_insert_eq. }
  split; [|split; [exact Hstored|split]].
  - intros c fuel' Hhit. rewrite minimax_frame. cbn zeta. fold key.
    by rewrite Hhit.
  - intros Hdepth.
    destruct (minimax_returns fuel depth alpha beta maximizing_player w)
      as (v & w' & Hrun); [done..|].
    exists v, w'. split; [done|]. by eapply Hstored.
  - intros Hmiss Hleaf. destruct fuel as [|fuel]; [lia|].
    rewrite minimax_frame. cbn zeta. fold key. rewrite Hmiss.
    destruct Hleaf as [->| ->]; [done|]. by rewrite orb_true_r.
Qed.

(** The position [X] of the transposition game, one ply deep, with the
    window (5, +inf) and an empty table: the first reply is worth 3, the
    loop is cut, and 3 is returned and stored for [X]. *)
Lemma minimax_cache_protocol_witness :
  let w := Explicit.start Transposition.X in
  ∃ v w', minimax 2 1 (Fin 5) PosInf false w = (Ok v, w') ∧
          table w' !! (("X", 1, false) : Key) = Some v.
Proof.
  intros w.
  refine (proj1 (proj2 (proj2
            (minimax_cache_protocol Explicit.rules w 2 1 (Fin 5) PosInf false
               _))) _).
  - vm_compute. lia.
  - lia.
Defined.

(** C7.  A binding of the transposition table survives every search: after
    any call of [minimax] or [find_best_move], whether it returned or
    raised, and after any later search started from whatever board with the
    table the earlier one left, the key still maps to the same value. *)
Theorem transposition_table_grows (R : Rules) (w : World R) (fuel : nat)
    (depth : Z) (alpha beta : Score) (maximizing_player : bool)
    (k : Key) (v : Score) :
  table w !! k = Some v →
  table (minimax fuel depth alpha beta maximizing_player w).2 !! k = Some v ∧
  table (find_best_move fuel depth w).2 !! k = Some v ∧
  ∀ (fuel' : nat) (depth' : Z) (b' : Board R),
    table (find_best_move fuel' depth'
             (mkWorld b' (table (find_best_move fuel depth w).2))).2 !! k
    = Some v.
Proof.
  intros Hk.
  pose proof (grows_subseteq _ _ _
    (minimax_grows fuel depth alpha beta maximizing_player w)) as H1.
  pose proof (grows_subseteq _ _ _ (find_best_move_grows fuel depth w)) as H2.
  rewrite map_subseteq_spec in H1, H2.
  split; [by apply H1|]. split; [by apply H2|].
  intros fuel' depth' b'.
  pose proof (grows_subseteq _ _ _ (find_best_move_grows fuel' depth'
    (mkWorld b' (table (find_best_move fuel depth w).2)))) as H3.
  rewrite map_subseteq_spec in H3. apply H3. simpl. by apply H2.
Qed.

(** An entry for [X] put in the table beforehand is still there after a
    search that reaches [X]. *)
Lemma transposition_table_grows_witness :
  let w := @mkWorld Explicit.rules (Explicit.mkBoard Transposition.root [])
             {[ ("X", 1, false) := Fin 7 ]} in
  table (minimax 3 2 NegInf PosInf false w).2 !! ("X", 1, false)
  = Some (Fin 7).
Proof.
  intros w.
  apply (proj1 (transposition_table_grows Explicit.rules w 3 2 NegInf PosInf
                  false ("X", 1, false) (Fin 7) eq_refl)).
Defined.

(** ** Search engine: board restoration *)

(** C4, as stated, fails where a recursive call fails: [minimax] has no
    handler around the recursive call, so the exception leaves the function
    before [board.pop()] is reached.  One frame being allowed, the search of
    the king-and-rook position raises in the call made after Ka8-b8 was
    pushed, and the board still has that move on it. *)
Lemma raise_leaves_move_pushed :
  let w := Explicit.start KRK.root in
  (minimax 1 1 NegInf PosInf false w).1 = Raise ∧
  board (minimax 1 1 NegInf PosInf false w).2
  = push (board w) (Explicit.step KRK.a8 KRK.b8) ∧
  board (minimax 1 1 NegInf PosInf false w).2 ≠ board w.
Proof.
  cbv zeta. split; [by vm_compute|]. split; [by vm_compute|].
  intros H.
  apply (f_equal (λ b : Explicit.TreeBoard, length (Explicit.history b))) in H.
  vm_compute in H. discriminate H.
Qed.

(** C4, amended.  After any call of [minimax] or [find_best_move] that
    returns, the board is the board the call was made on: every move pushed
    during the recursion has been popped. *)
Theorem search_restores_board (R : Rules) (w : World R) (fuel : nat)
    (depth : Z) (alpha beta : Score) (maximizing_player : bool) :
  pop_undoes_push R →
  (∀ v w', minimax fuel depth alpha beta maximizing_player w = (Ok v, w') →
           board w' = board w) ∧
  (∀ m w', find_best_move fuel depth w = (Ok m, w') → board w' = board w).
Proof.
  intros law. split.
  - intros v w'. by apply minimax_restores.
  - intros m w'. rewrite find_best_move_run.
    destruct (search_root fuel depth w) as [[r|] w1] eqn:Hrun; [|done].
    intros [= _ <-]. by eapply search_root_restores.
Qed.

(** A search of depth 2 of [Transposition.root] returns the board as it
    was. *)
Lemma search_restores_board_witness :
  board (minimax 3 2 NegInf PosInf false (Explicit.start Transposition.root)).2
  = board (Explicit.start Transposition.root).
Proof.
  apply (proj1 (search_restores_board Explicit.rules
                  (Explicit.start Transposition.root) 3 2 NegInf PosInf false
                  explicit_pop_push) (Fin 0)).
  vm_compute. reflexivity.
Defined.

(** ** Search engine: termination *)




(** ** Move selector *)

(** C2: the selector run on [k7/8/1K6/8/8/8/8/7R b - - 0 1].  Black has
    exactly one legal move, Ka8-b8, after which White mates with Rh1-h8.
    The score of the only move is therefore the positive infinity, which is
    not below the initial [best_val], and [find_best_move] returns [None]
    although a legal move exists: at depth 2, and at the depth 5 the program
    uses (there the mate is tried first, being the one checking move, and
    cuts the loop, so that no position beyond it is looked at). *)
Theorem forced_mate_yields_no_move :
  let w := Explicit.start KRK.root in
  legal_moves (board w) = [Explicit.step KRK.a8 KRK.b8] ∧
  is_game_over (board w) = false ∧
  (search_root 2 2 w).1 = Ok (None, PosInf) ∧
  (find_best_move 2 2 w).1 = Ok None ∧
  (find_best_move 5 5 w).1 = Ok None.
Proof. cbv zeta. repeat split; by vm_compute. Qed.

(** C9.  A search of depth 1 from a position such as the initial position
    after White's first move: Black has a legal reply, after every reply the
    game goes on, distinct positions have distinct FEN records, the material
    is level and no reply that is not a capture changes it.  The table holds
    nothing wrong about the replies (in particular, it may be empty).  Then
    the selector returns a legal reply; the score it found for that reply is
    the material balance of the position after it, the lowest among all
    replies; and that score is 0 when the reply is not a capture. *)
Theorem depth_one_reply_material (R : Rules) (b : Board R)
    (t : gmap Key Score) (fuel : nat) :
  pop_undoes_push R →
  (1 ≤ fuel)%nat →
  legal_moves b ≠ [] →
  (∀ m, m ∈ legal_moves b →
        is_checkmate (push b m) = false ∧
        is_stalemate (push b m) = false ∧
        is_insufficient_material (push b m) = false) →
  (∀ m m', m ∈ legal_moves b → m' ∈ legal_moves b →
           fen (push b m) = fen (push b m') →
           material_balance (push b m) = material_balance (push b m')) →
  leaves_exact b t →
  material_balance b = 0 →
  (∀ m, m ∈ legal_moves b → is_capture b m = false →
        material_balance (push b m) = material_balance b) →
  ∃ m w',
    search_root fuel 1 (mkWorld b t)
    = (Ok (Some m, Fin (material_balance (push b m))), w') ∧
    find_best_move fuel 1 (mkWorld b t) = (Ok (Some m), w') ∧
    board w' = b ∧
    m ∈ legal_moves b ∧
    (∀ m', m' ∈ legal_moves b →
           material_balance (push b m) ≤ material_balance (push b m')) ∧
    (is_capture b m = false → material_balance (push b m) = 0).
Proof.
  intros law Hfuel Hmoves Hplay Hfen Hleaf Hlevel Hquiet.
  destruct fuel as [|fuel]; [lia|].
  assert (∀ m, m ∈ legal_moves b →
            static_eval (push b m) = Fin (material_balance (push b m)))
    as Hstatic.
  { intros m Hm. destruct (Hplay m Hm) as (Hc & Hs & Hi).
    unfold static_eval. by rewrite Hc, Hs, Hi. }
  destruct (root_loop_depth_one b fuel (ordered b) None PosInf PosInf
              (mkWorld b t) law) as (w' & Hrun & Hb); try done.
  { intros m m' Hm Hm' E. rewrite !Hstatic by done. f_equal. by apply Hfen. }
  { intros m Hm. by apply elem_of_ordered. }
  set (scored := (λ m, (m, static_eval (push b m))) <$> ordered b) in *.
  destruct (pick_lowest_spec scored None PosInf) as [Hmin Hcase].
  cbv zeta in Hmin, Hcase.
  assert (∀ m, m ∈ legal_moves b → (m, static_eval (push b m)) ∈ scored)
    as Hin.
  { intros m Hm. apply (list_elem_of_fmap_2 (λ m, (m, static_eval (push b m)))).
    by apply elem_of_ordered. }
  destruct Hcase as [Hnone|(_ & m & Hm & Hmv)].
  - destruct (legal_moves b) as [|m0 ms] eqn:Hl; [done|].
    assert (m0 ∈ m0 :: ms) as Hm0 by left.
    specialize (Hmin _ (Hin m0 Hm0)). rewrite Hnone in Hmin.
    cbn [fst snd] in Hmin. rewrite Hstatic in Hmin by done.
    by rewrite sle_PosInf_Fin in Hmin.
  - apply list_elem_of_fmap in Hmv as (m1 & [= -> Hv] & Hm1).
    apply elem_of_ordered in Hm1.
    rewrite Hstatic in Hv by done.
    destruct (pick_lowest scored None PosInf) as [best_move best_val] eqn:Hp.
    cbn [fst snd] in Hm, Hv, Hmin. subst best_move best_val.
    exists m1, w'. rewrite find_best_move_run, search_root_run.
    change (1 - 1) with 0. cbn [board]. rewrite Hrun.
    repeat split; try done.
    + intros m' Hm'. specialize (Hmin _ (Hin m' Hm')). cbn [fst snd] in Hmin.
      rewrite Hstatic in Hmin by done. by apply sle_Fin.
    + intros Hcap. rewrite Hquiet by done. done.
Qed.

(** The initial position after each of the twenty first moves of White,
    searched at depth 1 from an empty table. *)
Lemma depth_one_reply_material_witness :
  Forall
    (λ first,
       let b := Opening.after first in
       ∃ m w',
         search_root 1 1 (mkWorld b ∅)
         = (Ok (Some m, Fin (material_balance (push b m))), w') ∧
         find_best_move 1 1 (mkWorld b ∅) = (Ok (Some m), w') ∧
         board w' = b ∧
         m ∈ legal_moves b ∧
         (∀ m', m' ∈ legal_moves b →
                material_balance (push b m) ≤ material_balance (push b m')) ∧
         (is_capture b m = false → material_balance (push b m) = 0))
    Opening.white_first_moves.
Proof.
  assert (∀ first, first ∈ Opening.white_first_moves →
            legal_moves (Opening.after first) = Opening.black_replies)
    as Hreplies.
  { refine (proj1 (Forall_forall _ _) _).
    apply (bool_decide_unpack _). vm_compute. exact I. }
  assert (∀ first, first ∈ Opening.white_first_moves →
            material_balance (Opening.after first) = 0) as Hstart.
  { refine (proj1 (Forall_forall _ _) _).
    apply (bool_decide_unpack _). vm_compute. exact I. }
  assert (∀ first, first ∈ Opening.white_first_moves →
          ∀ m, m ∈ Opening.black_replies →
            is_checkmate (push (Opening.after first) m) = false ∧
            is_stalemate (push (Opening.after first) m) = false ∧
            is_insufficient_material (push (Opening.after first) m) = false ∧
            material_balance (push (Opening.after first) m) = 0) as Hreply.
  { refine (proj1 (Forall_forall _ _) _).
    apply (Forall_impl
             (λ first, Forall (λ m,
                is_checkmate (push (Opening.after first) m) = false ∧
                is_stalemate (push (Opening.after first) m) = false ∧
                is_insufficient_material (push (Opening.after first) m) = false ∧
                material_balance (push (Opening.after first) m) = 0)
                Opening.black_replies)).
    - apply (bool_decide_unpack _). vm_compute. exact I.
    - intros first H. by apply Forall_forall. }
  refine (proj2 (Forall_forall _ _) _). intros first Hfirst. cbv zeta.
  apply (depth_one_reply_material Explicit.rules (Opening.after first) ∅ 1).
  - exact explicit_pop_push.
  - lia.
  - rewrite Hreplies by done. discriminate.
  - rewrite Hreplies by done. intros m Hm.
    destruct (Hreply first Hfirst m Hm) as (? & ? & ? & _). done.
  - rewrite Hreplies by done. intros m m' Hm Hm' _.
    destruct (Hreply first Hfirst m Hm) as (_ & _ & _ & ->).
    destruct (Hreply first Hfirst m' Hm') as (_ & _ & _ & ->). done.
  - intros m v _ Hv. rewrite lookup_empty in Hv. discriminate Hv.
  - by apply Hstart.
  - rewrite Hreplies by done. intros m Hm _.
    destruct (Hreply first Hfirst m Hm) as (_ & _ & _ & ->).
    by rewrite Hstart.
Defined.

(** ** Pruning and caching against plain minimax *)

(** A cached bound within one search.  In the game [Transposition.root],
    searched 3 plies deep from an empty table, the position [X] is first
    reached below [A] with the window (5, +inf): its first reply is worth 3,
    the loop is cut, and 3 is stored for [X], whose minimax value is 0.
    Below [B] the same position is reached again, the stored 3 is returned,
    [B] scores 3 instead of 0, and the move to [C], worth 2, is preferred
    to it.  Plain minimax over the same ordering selects the move to
    [B]. *)
Lemma cached_bound_changes_move :
  let w := Explicit.start Transposition.root in
  (find_best_move 3 3 w).1 = Ok (Some Transposition.m3) ∧
  full_best_move (board w) 3 = Some Transposition.m2 ∧
  (search_root 3 3 w).1 = Ok (Some Transposition.m3, Fin 2) ∧
  full_search_root (board w) 3 = (Some Transposition.m2, Fin 0) ∧
  Explicit.current
    (push (push (board w) Transposition.m1) Transposition.m2)
  = Explicit.current
      (push (push (board w) Transposition.m2) Transposition.m1) ∧
  table (search_root 3 3 w).2 !! ("X", 1, false) = Some (Fin 3) ∧
  full_minimax 1 (push (push (board w) Transposition.m2) Transposition.m1)
    false = Fin 0.
Proof. cbv zeta. repeat split; by vm_compute. Qed.

(** C1: two searches of depth 2, the second with the table the first has
    left.  On [8/8/7k/3p3P/8/1K6/6Q1/8 b - - 0 1] the selector tries the
    capture Kh6xh5 first, worth 9, and then Kh6-h7 with the window
    (-inf, 9): White's first reply there, the check Qg2-g8, is worth 9, the
    loop is cut before Qg2xd5 is looked at, and 9 is stored for the position
    with the king on h7, whose minimax value is 10.  On
    [7k/8/8/3p3P/8/1K6/6Q1/8 b - - 0 1] the move Kh8-h7 leads to that
    position: the stored 9 is returned for it, d5-d4, worth 9 as well, is
    not strictly better, and [find_best_move] returns Kh8-h7.  Plain
    minimax of depth 2 over the same move ordering gives Kh8-h7 the score
    10 and selects d5-d4, and so does [find_best_move] itself when it
    starts from an empty table. *)
Theorem cached_bound_misleads_selector :
  let first := Explicit.start QueenEnding.first in
  let seen := table (find_best_move 2 2 first).2 in
  let second :=
    @mkWorld Explicit.rules (Explicit.mkBoard QueenEnding.second []) seen in
  let Kh7 := Explicit.step QueenEnding.h8 QueenEnding.h7 in
  let d4 := Explicit.step QueenEnding.d5 QueenEnding.d4 in
  (find_best_move 2 2 first).1
  = Ok (Some (Explicit.step QueenEnding.h6 QueenEnding.h5)) ∧
  fen (push (board second) Kh7) = "8/7k/8/3p3P/8/1K6/6Q1/8 w - - 1 2" ∧
  seen !! (("8/7k/8/3p3P/8/1K6/6Q1/8 w - - 1 2", 1, true) : Key)
  = Some (Fin 9) ∧
  full_minimax 1 (push (board second) Kh7) true = Fin 10 ∧
  (search_root 2 2 second).1 = Ok (Some Kh7, Fin 9) ∧
  (find_best_move 2 2 second).1 = Ok (Some Kh7) ∧
  full_search_root (board second) 2 = (Some d4, Fin 9) ∧
  full_best_move (board second) 2 = Some d4 ∧
  (find_best_move 2 2 (Explicit.start QueenEnding.second)).1 = Ok (Some d4).
Proof. cbv zeta. repeat split; by vm_compute. Qed.

(** * Further properties of the code *)

(** ** [minimax]: the window and the table *)

Lemma minimax_stores {R : Rules} (w : World R) fuel depth alpha beta mp v w' :
  minimax fuel depth alpha beta mp w = (Ok v, w') →
  table w' !! ((fen (board w), depth, mp) : Key) = Some v.
Proof.
  destruct fuel as [|fuel]; [done|]. rewrite minimax_frame. cbn zeta.
  destruct (table w !! _) as [c|] eqn:Hhit.
  - by intros [= <- <-].
  - destruct (_ || _).
    + intros [= <- <-]. apply lookup_insert_eq.
    + destruct (_ w) as [[u|] w1]; [|done].
      intros [= <- <-]. apply lookup_insert_eq.
Qed.

Lemma within_open (t v : Score) : within NegInf PosInf t v → v = t.
Proof. intros. score_cases. Qed.

(** X1.  The value a windowed search returns.  For a node whose tree has
    pairwise distinct keys, none of them in the table, and a window
    [alpha < beta]: if the plain minimax value is at most [alpha] so is the
    returned value, if it is at least [beta] so is the returned value, and
    if it lies strictly between the two it is returned exactly.  With the
    window (-inf, +inf) the returned value is the plain minimax value. *)
Theorem minimax_value_in_window (R : Rules) (w : World R) (d fuel : nat)
    (alpha beta : Score) (maximizing_player : bool) (v : Score)
    (w' : World R) :
  pop_undoes_push R →
  NoDup (tree_keys d (board w) maximizing_player) →
  (∀ k, k ∈ tree_keys d (board w) maximizing_player → table w !! k = None) →
  slt alpha beta = true →
  minimax fuel (Z.of_nat d) alpha beta maximizing_player w = (Ok v, w') →
  let t := full_minimax d (board w) maximizing_player in
  (sle t alpha = true → sle v alpha = true) ∧
  (slt alpha t = true → slt t beta = true → v = t) ∧
  (sle beta t = true → sle beta v = true) ∧
  (alpha = NegInf → beta = PosInf → v = t).
Proof.
  intros law Hnd Hnone Hlt Hrun.
  destruct (minimax_sound law d fuel maximizing_player _ _ _ _ _ Hrun)
    as (_ & _ & Hv).
  specialize (Hv Hnd Hnone Hlt). cbv zeta.
  destruct Hv as (H1 & H2 & H3). repeat split; try done.
  intros -> ->. apply within_open. by repeat split.
Qed.

(** The position [A] of the transposition game, two plies deep, with the
    window (4, 6) around its value 5. *)
Lemma minimax_value_in_window_witness :
  let w := Explicit.start Transposition.A in
  let t := full_minimax 2 (board w) true in
  (sle t (Fin 4) = true → sle (Fin 5) (Fin 4) = true) ∧
  (slt (Fin 4) t = true → slt t (Fin 6) = true → Fin 5 = t) ∧
  (sle (Fin 6) t = true → sle (Fin 6) (Fin 5) = true) ∧
  (Fin 4 = NegInf → Fin 6 = PosInf → Fin 5 = t).
Proof.
  intros w.
  apply (minimax_value_in_window Explicit.rules w 2 3 (Fin 4) (Fin 6) true
           (Fin 5) (minimax 3 2 (Fin 4) (Fin 6) true w).2).
  - exact explicit_pop_push.
  - apply (bool_decide_unpack _). vm_compute. exact I.
  - intros k _. apply lookup_empty.
  - reflexivity.
  - vm_compute. reflexivity.
Defined.

(** X2.  A node searched once is not searched again: after a call of
    [minimax] has returned, any later call on the same node in the state it
    left, whatever its window, returns the same value from the table with a
    single frame and changes nothing. *)
Theorem minimax_replays (R : Rules) (w : World R) (fuel : nat) (depth : Z)
    (alpha beta : Score) (maximizing_player : bool) (v : Score)
    (w' : World R) (fuel' : nat) (alpha' beta' : Score) :
  pop_undoes_push R →
  minimax fuel depth alpha beta maximizing_player w = (Ok v, w') →
  minimax (S fuel') depth alpha' beta' maximizing_player w' = (Ok v, w').
Proof.
  intros law Hrun. rewrite minimax_frame. cbn zeta.
  rewrite (minimax_restores law _ _ _ _ _ _ _ _ Hrun).
  by rewrite (minimax_stores _ _ _ _ _ _ _ _ Hrun).
Qed.

(** [A] searched with the full window, then again with the window (0, 1). *)
Lemma minimax_replays_witness :
  let w := Explicit.start Transposition.A in
  minimax 1 2 (Fin 0) (Fin 1) true (minimax 3 2 NegInf PosInf true w).2
  = (Ok (Fin 5), (minimax 3 2 NegInf PosInf true w).2).
Proof.
  intros w.
  apply (minimax_replays Explicit.rules w 3 2 NegInf PosInf true (Fin 5)).
  - exact explicit_pop_push.
  - vm_compute. reflexivity.
Defined.

(** ** [find_best_move]: the move it returns *)

(** X3.  A move returned by [find_best_move] is a legal move of the
    position it was called on; and on a position without legal moves it
    returns [None] and leaves board and table as they were. *)
Theorem selector_move_is_legal (R : Rules) (w : World R) (fuel : nat)
    (depth : Z) (r : option Move) (w' : World R) :
  find_best_move fuel depth w = (Ok r, w') →
  (∀ m, r = Some m → m ∈ legal_moves (board w)) ∧
  (legal_moves (board w) = [] → r = None ∧ w' = w).
Proof.
  intros Hrun. split.
  - intros m ->. by eapply find_best_move_legal.
  - intros Hnil. rewrite find_best_move_no_moves in Hrun by done.
    by inversion Hrun.
Qed.

(** Depth 1 on the king-and-rook position. *)
Lemma selector_move_is_legal_witness :
  let w := Explicit.start KRK.root in
  (∀ m, Some (Explicit.step KRK.a8 KRK.b8) = Some m →
        m ∈ legal_moves (board w)) ∧
  (legal_moves (board w) = [] →
   Some (Explicit.step KRK.a8 KRK.b8) = None ∧ (find_best_move 1 1 w).2 = w).
Proof.
  intros w.
  apply (selector_move_is_legal Explicit.rules w 1 1).
  vm_compute. reflexivity.
Defined.

(** *** The root loop over known scores *)

Lemma slt_trans (a b c : Score) :
  slt a b = true → slt b c = true → slt a c = true.
Proof. intros. score_cases. Qed.

Lemma slt_sle_trans (a b c : Score) :
  slt a b = true → slt c b = false → slt a c = true.
Proof. intros. score_cases. Qed.

Lemma slt_PosInf_false (v : Score) : slt v PosInf = false ↔ v = PosInf.
Proof. score_cases. Qed.

Lemma sle_NegInf (v : Score) : sle v NegInf = true ↔ v = NegInf.
Proof. score_cases. Qed.

Lemma pick_lowest_keeps (scored : list (Move * Score)) (m : Move) best_val :
  (pick_lowest scored (Some m) best_val).1 ≠ None.
Proof.
  revert m best_val. induction scored as [|[m' v] scored IH];
    intros m best_val; simpl; [done|].
  destruct (slt v best_val); apply IH.
Qed.

Lemma pick_lowest_none (scored : list (Move * Score)) best_val :
  (pick_lowest scored None best_val).1 = None ↔
  ∀ e, e ∈ scored → slt e.2 best_val = false.
Proof.
  induction scored as [|[m v] scored IH]; simpl.
  - split; [|done]. intros _ e He. by apply elem_of_nil in He.
  - destruct (slt v best_val) eqn:Hlt.
    + split.
      * intros H. by apply pick_lowest_keeps in H.
      * intros H. specialize (H (m, v)). simpl in H.
        rewrite H in Hlt; [done|left].
    + rewrite IH. split.
      * intros H e [->|He]%elem_of_cons; [done|by apply H].
      * intros H e He. apply H. by right.
Qed.

(** The entry kept is the first of the lowest: what comes before it is
    strictly higher, what comes after it is not lower. *)
Lemma pick_lowest_first (scored : list (Move * Score)) best_move best_val m v :
  pick_lowest scored best_move best_val = (Some m, v) →
  (best_move = Some m ∧ v = best_val ∧
   ∀ e, e ∈ scored → slt e.2 best_val = false) ∨
  (slt v best_val = true ∧
   ∃ l1 l2, scored = l1 ++ (m, v) :: l2 ∧
            (∀ e, e ∈ l1 → slt v e.2 = true) ∧
            (∀ e, e ∈ l2 → slt e.2 v = false)).
Proof.
  revert best_move best_val.
  induction scored as [|[m0 v0] scored IH]; intros best_move best_val; simpl.
  - intros [= -> ->]. left. repeat split. intros e He.
    by apply elem_of_nil in He.
  - destruct (slt v0 best_val) eqn:Hlt; intros Hp;
      apply IH in Hp as [(Hm & Hv & Hrest)|(Hlow & l1 & l2 & -> & H1 & H2)].
    + right. inversion Hm; subst. split; [done|].
      exists [], scored. repeat split; [|done].
      intros e He. by apply elem_of_nil in He.
    + right. split; [by eapply slt_trans|].
      exists ((m0, v0) :: l1), l2. repeat split; [|done].
      intros e [->|He]%elem_of_cons; [done|by apply H1].
    + left. repeat split; try done.
      intros e [->|He]%elem_of_cons; [done|by apply Hrest].
    + right. split; [done|].
      exists ((m0, v0) :: l1), l2. repeat split; [|done].
      intros e [->|He]%elem_of_cons; [|by apply H1]. simpl.
      by eapply slt_sle_trans.
Qed.

Section Choice.
Context {R : Rules}.
Hypothesis law : pop_undoes_push R.
Variables (b : Board R) (t : gmap Key Score) (d fuel : nat).
Hypothesis depth_positive : (1 ≤ d)%nat.
Hypothesis enough_fuel : (d ≤ fuel)%nat.
Hypothesis distinct_keys : NoDup (search_keys b d).
Hypothesis fresh_keys : ∀ k, k ∈ search_keys b d → t !! k = None.

(** Under these hypotheses the search returns what the root loop finds on
    the plain minimax values of the replies. *)
Lemma selector_on_plain_values :
  ∃ w',
    search_root fuel (Z.of_nat d) (mkWorld b t)
    = (Ok (pick_lowest
             ((λ m, (m, full_minimax (d - 1) (push b m) true)) <$> ordered b)
             None PosInf), w') ∧
    find_best_move fuel (Z.of_nat d) (mkWorld b t)
    = (Ok (pick_lowest
             ((λ m, (m, full_minimax (d - 1) (push b m) true)) <$> ordered b)
             None PosInf).1, w').
Proof.
  destruct (search_root_returns fuel (Z.of_nat d) (mkWorld b t))
    as (r & w' & Hrun); [lia..|].
  exists w'. rewrite find_best_move_run, Hrun.
  apply (search_root_sound law) in Hrun as ->; done.
Qed.

End Choice.

(** X4.  When [find_best_move] returns no move.  For a search whose tree
    has pairwise distinct keys, none of them in the table: the result is
    [None] exactly when every legal move (if there is any) has the plain
    minimax value +inf, that is, when every reply lets White force mate
    within the horizon. *)
Theorem no_move_iff_all_replies_lose (R : Rules) (b : Board R)
    (t : gmap Key Score) (d fuel : nat) :
  pop_undoes_push R →
  (1 ≤ d)%nat → (d ≤ fuel)%nat →
  NoDup (search_keys b d) →
  (∀ k, k ∈ search_keys b d → t !! k = None) →
  ∃ r w',
    find_best_move fuel (Z.of_nat d) (mkWorld b t) = (Ok r, w') ∧
    (r = None ↔
     ∀ m, m ∈ legal_moves b → full_minimax (d - 1) (push b m) true = PosInf).
Proof.
  intros law Hd Hfuel Hnd Hnone.
  destruct (selector_on_plain_values law b t d fuel Hd Hfuel Hnd Hnone)
    as (w' & _ & Hrun).
  eexists _, w'. split; [exact Hrun|].
  rewrite pick_lowest_none. split.
  - intros H m Hm. apply slt_PosInf_false.
    apply (H (m, full_minimax (d - 1) (push b m) true)).
    apply (list_elem_of_fmap_2 (λ m, (m, full_minimax (d - 1) (push b m) true))).
    by apply elem_of_ordered.
  - intros H e He. apply list_elem_of_fmap in He as (m & -> & Hm).
    apply slt_PosInf_false. simpl. apply H. by apply elem_of_ordered.
Qed.

(** The king-and-rook position at depth 2: its one reply is worth +inf. *)
Lemma no_move_iff_all_replies_lose_witness :
  ∃ r w',
    find_best_move 2 2 (Explicit.start KRK.root) = (Ok r, w') ∧
    (r = None ↔
     ∀ m, m ∈ legal_moves (board (Explicit.start KRK.root)) →
          full_minimax 1 (push (board (Explicit.start KRK.root)) m) true
          = PosInf).
Proof.
  apply (no_move_iff_all_replies_lose Explicit.rules
           (Explicit.mkBoard KRK.root []) ∅ 2 2).
  - exact explicit_pop_push.
  - lia.
  - lia.
  - apply (bool_decide_unpack _). vm_compute. exact I.
  - intros k _. apply lookup_empty.
Defined.

(** X5.  Which move [find_best_move] returns.  Under the same hypotheses,
    the move returned is the first, in the order of [order_moves], among
    the moves of lowest plain minimax value: every move ordered before it
    has a strictly higher value, no move ordered after it has a lower one,
    and its value is below +inf. *)
Theorem selector_takes_first_lowest (R : Rules) (b : Board R)
    (t : gmap Key Score) (d fuel : nat) (m : Move) :
  pop_undoes_push R →
  (1 ≤ d)%nat → (d ≤ fuel)%nat →
  NoDup (search_keys b d) →
  (∀ k, k ∈ search_keys b d → t !! k = None) →
  (find_best_move fuel (Z.of_nat d) (mkWorld b t)).1 = Ok (Some m) →
  let value m := full_minimax (d - 1) (push b m) true in
  slt (value m) PosInf = true ∧
  ∃ before after,
    (order_moves (mkWorld b t)).1 = Ok (before ++ m :: after) ∧
    (∀ m', m' ∈ before → slt (value m) (value m') = true) ∧
    (∀ m', m' ∈ after → sle (value m) (value m') = true).
Proof.
  intros law Hd Hfuel Hnd Hnone Hrun. cbv zeta.
  destruct (selector_on_plain_values law b t d fuel Hd Hfuel Hnd Hnone)
    as (w1 & _ & Hrun').
  rewrite Hrun' in Hrun. cbn [fst] in Hrun. inversion Hrun as [Hm].
  clear Hrun Hrun'.
  destruct (pick_lowest _ None PosInf) as [bm bv] eqn:Hp.
  cbn [fst] in Hm. subst bm.
  apply pick_lowest_first in Hp as [(? & _)|(Hlow & l1 & l2 & Hl & H1 & H2)];
    [done|].
  apply fmap_app_inv in Hl as (before & rest & -> & Hrest & Hord).
  symmetry in Hrest.
  apply fmap_cons_inv in Hrest as (m0 & after & [= -> ->] & -> & ->).
  split; [done|]. exists before, after.
  rewrite order_moves_run. simpl. split; [by rewrite Hord|]. split.
  - intros m' Hm'.
    apply (H1 (m', full_minimax (d - 1) (push b m') true)).
    by apply (list_elem_of_fmap_2 (λ m, (m, full_minimax (d - 1) (push b m) true))).
  - intros m' Hm'. unfold sle. apply negb_true_iff.
    apply (H2 (m', full_minimax (d - 1) (push b m') true)).
    by apply (list_elem_of_fmap_2 (λ m, (m, full_minimax (d - 1) (push b m) true))).
Qed.

(** The mate-in-one position at depth 1: the mate is the second move in the
    ordering, after the other check. *)
Lemma selector_takes_first_lowest_witness :
  let b : Board Explicit.rules := Explicit.mkBoard MateInOne.root [] in
  let m := Explicit.step MateInOne.h8 MateInOne.h1 in
  let value m := full_minimax (1 - 1) (push b m) true in
  slt (value m) PosInf = true ∧
  ∃ before after,
    (order_moves (mkWorld b ∅)).1 = Ok (before ++ m :: after) ∧
    (∀ m', m' ∈ before → slt (value m) (value m') = true) ∧
    (∀ m', m' ∈ after → sle (value m) (value m') = true).
Proof.
  intros b m.
  apply (selector_takes_first_lowest Explicit.rules b ∅ 1 1 m).
  - exact explicit_pop_push.
  - lia.
  - lia.
  - apply (bool_decide_unpack _). vm_compute. exact I.
  - intros k _. apply lookup_empty.
  - vm_compute. reflexivity.
Defined.

(** X6.  A mate is not missed.  Under the same hypotheses, if some legal
    move checkmates White, and the rules engine reports the game over
    there, then [find_best_move] returns a move of plain minimax value
    -inf; at depth 1 the returned move is itself a checkmate. *)
Theorem mate_is_found (R : Rules) (b : Board R) (t : gmap Key Score)
    (d fuel : nat) (mate : Move) :
  pop_undoes_push R →
  (1 ≤ d)%nat → (d ≤ fuel)%nat →
  NoDup (search_keys b d) →
  (∀ k, k ∈ search_keys b d → t !! k = None) →
  mate ∈ legal_moves b →
  is_checkmate (push b mate) = true →
  turn (push b mate) = WHITE →
  is_game_over (push b mate) = true →
  ∃ m w',
    find_best_move fuel (Z.of_nat d) (mkWorld b t) = (Ok (Some m), w') ∧
    m ∈ legal_moves b ∧
    full_minimax (d - 1) (push b m) true = NegInf ∧
    (d = 1%nat → is_checkmate (push b m) = true ∧ turn (push b m) = WHITE).
Proof.
  intros law Hd Hfuel Hnd Hnone Hmate Hcheck Hturn Hover.
  destruct (selector_on_plain_values law b t d fuel Hd Hfuel Hnd Hnone)
    as (w' & _ & Hrun).
  set (scored := (λ m, (m, full_minimax (d - 1) (push b m) true)) <$> ordered b)
    in *.
  assert (full_minimax (d - 1) (push b mate) true = NegInf) as Hvalue.
  { unfold WHITE in Hturn.
    destruct (d - 1)%nat; simpl; rewrite ?Hover; unfold static_eval;
      by rewrite Hcheck, Hturn. }
  destruct (pick_lowest_spec scored None PosInf) as [Hmin Hcase].
  cbv zeta in Hmin, Hcase.
  assert ((pick_lowest scored None PosInf).2 = NegInf) as Hlowest.
  { apply sle_NegInf. rewrite <- Hvalue.
    apply (Hmin (mate, full_minimax (d - 1) (push b mate) true)).
    apply (list_elem_of_fmap_2 (λ m, (m, full_minimax (d - 1) (push b m) true))).
    by apply elem_of_ordered. }
  destruct Hcase as [Hnone'|(_ & m & Hm & Hin)].
  { rewrite Hnone' in Hlowest. done. }
  rewrite Hlowest in Hin.
  apply list_elem_of_fmap in Hin as (m1 & [= -> Hv] & Hm1).
  apply elem_of_ordered in Hm1.
  exists m1, w'. rewrite Hrun, Hm. repeat split; try done;
    subst d; cbn [Nat.sub full_minimax] in Hv; unfold static_eval in Hv;
    unfold WHITE;
    by destruct (is_checkmate (push b m1)), (turn (push b m1)),
      (is_stalemate (push b m1) || is_insufficient_material (push b m1)).
Qed.

(** The mate-in-one position at depth 1. *)
Lemma mate_is_found_witness :
  let b : Board Explicit.rules := Explicit.mkBoard MateInOne.root [] in
  ∃ m w',
    find_best_move 1 1 (mkWorld b ∅) = (Ok (Some m), w') ∧
    m ∈ legal_moves b ∧
    full_minimax (1 - 1) (push b m) true = NegInf ∧
    (1%nat = 1%nat →
     is_checkmate (push b m) = true ∧ turn (push b m) = WHITE).
Proof.
  intros b.
  apply (mate_is_found Explicit.rules b ∅ 1 1
           (Explicit.step MateInOne.h8 MateInOne.h1)).
  - exact explicit_pop_push.
  - lia.
  - lia.
  - apply (bool_decide_unpack _). vm_compute. exact I.
  - intros k _. apply lookup_empty.
  - apply (bool_decide_unpack _). vm_compute. exact I.
  - vm_compute. reflexivity.
  - vm_compute. reflexivity.
  - vm_compute. reflexivity.
Defined.

(** The loop of the selector run again on a table that holds what the first
    run stored: every call is a hit. *)
Lemma root_loop_replays {R : Rules} (b : Board R) (fuel : nat) (depth : Z) :
  pop_undoes_push R →
  ∀ ms best_move best_val alpha beta (w : World R) r w1,
    board w = b → (∀ m, m ∈ ms → m ∈ legal_moves b) →
    root_loop (λ a b, minimax fuel depth a b true) ms
      best_move best_val alpha beta w = (Ok r, w1) →
    ∀ (T : gmap Key Score) (fuel' : nat) (beta' : Score),
      table w1 ⊆ T →
      root_loop (λ a b, minimax (S fuel') depth a b true) ms
        best_move best_val alpha beta' (mkWorld b T) = (Ok r, mkWorld b T).
Proof.
  intros law ms. induction ms as [|m ms IH];
    intros best_move best_val alpha beta w r w1 Hb Hms Hrun T fuel' beta' HT.
  - by inversion Hrun.
  - rewrite root_loop_cons in Hrun.
    destruct (minimax fuel depth alpha beta true (pushed m w))
      as [[val|] w2] eqn:Hcall; [|done].
    pose proof (minimax_stores _ _ _ _ _ _ _ _ Hcall) as Hstored.
    pose proof (minimax_restores law _ _ _ _ _ _ _ _ Hcall) as Hboard.
    simpl in Hstored, Hboard. rewrite Hb in Hstored, Hboard.
    assert (board (popped w2) = b) as Hb2.
    { simpl. rewrite Hboard. apply law, Hms. left. }
    assert (table w2 ⊆ table w1) as Hgrow.
    { destruct (slt val best_val).
      - pose proof (root_loop_grows depth (λ a b, minimax fuel depth a b true)
          (λ a b w, minimax_grows fuel depth a b true w) ms (Some m) val alpha
          (smin beta val) (popped w2)) as H.
        rewrite Hrun in H. by apply grows_subseteq in H.
      - pose proof (root_loop_grows depth (λ a b, minimax fuel depth a b true)
          (λ a b w, minimax_grows fuel depth a b true w) ms best_move best_val
          alpha beta (popped w2)) as H.
        rewrite Hrun in H. by apply grows_subseteq in H. }
    assert (T !! ((fen (push b m), depth, true) : Key) = Some val) as Hhit.
    { eapply lookup_weaken; [|exact HT]. eapply lookup_weaken; [|exact Hgrow].
      exact Hstored. }
    rewrite root_loop_cons, minimax_frame. cbn zeta. simpl. rewrite Hhit.
    unfold popped. simpl. rewrite (law b m) by (apply Hms; left).
    destruct (slt val best_val); eapply IH; try exact Hrun; try done;
      intros; apply Hms; by right.
Qed.

(** X7.  Searching the same position again.  After [find_best_move] has
    returned, calling it again in the state it left, with the same depth,
    returns the same move, needs a single [minimax] frame per reply, and
    leaves board and table as they are: every reply is answered from the
    table. *)
Theorem search_replays (R : Rules) (w : World R) (fuel : nat) (depth : Z)
    (r : option Move) (w' : World R) (fuel' : nat) :
  pop_undoes_push R →
  find_best_move fuel depth w = (Ok r, w') →
  find_best_move (S fuel') depth w' = (Ok r, w').
Proof.
  intros law. rewrite !find_best_move_run.
  destruct (search_root fuel depth w) as [[r0|] w1] eqn:Hrun; [|done].
  intros [= <- <-].
  pose proof (search_root_restores law _ _ _ _ _ Hrun) as Hb.
  rewrite search_root_run in Hrun. rewrite search_root_run.
  destruct w1 as [b1 t1]. simpl in Hb. subst b1. cbn [board].
  eapply (root_loop_replays (board w) fuel (depth - 1) law) with (T := t1)
    in Hrun; [|done|intros m Hm; by apply elem_of_ordered|done].
  by rewrite Hrun.
Qed.

(** The transposition game searched 3 plies deep, then again with one
    frame. *)
Lemma search_replays_witness :
  let w := Explicit.start Transposition.root in
  find_best_move 1 3 (find_best_move 3 3 w).2
  = (Ok (Some Transposition.m3), (find_best_move 3 3 w).2).
Proof.
  intros w.
  apply (search_replays Explicit.rules w 3 3 (Some Transposition.m3)).
  - exact explicit_pop_push.
  - vm_compute. reflexivity.
Defined.

(** ** [order_moves]: ties *)

Lemma insert_desc_filter (s : Z) (x : Z * Move) (l : list (Z * Move)) :
  filter (λ e, e.1 = s) (insert_desc x l) = filter (λ e, e.1 = s) (x :: l).
Proof.
  induction l as [|y l IH]; simpl; [done|].
  destruct (Z.leb_spec y.1 x.1); [done|].
  rewrite filter_cons, IH, !filter_cons.
  repeat case_decide; try done; lia.
Qed.

Lemma sort_desc_filter (s : Z) (l : list (Z * Move)) :
  filter (λ e, e.1 = s) (sort_desc l) = filter (λ e, e.1 = s) l.
Proof.
  induction l as [|x l IH]; simpl; [done|].
  by rewrite insert_desc_filter, !filter_cons, IH.
Qed.

Lemma filter_keyed (key : Move → Z) (s : Z) (l : list (Z * Move)) :
  Forall (λ e, e.1 = key e.2) l →
  filter (λ m, key m = s) l.*2 = (filter (λ e, e.1 = s) l).*2.
Proof.
  induction 1 as [|e l He Hl IH]; csimpl; [done|].
  rewrite !filter_cons, IH. repeat case_decide; try done; congruence.
Qed.

Lemma filter_all {A} (P : A → Prop) `{∀ x, Decision (P x)} (l : list A) :
  Forall P l → filter P l = l.
Proof.
  induction 1 as [|x l Hx Hl IH]; [done|].
  rewrite filter_cons, IH. by case_decide.
Qed.

Lemma ordered_stable {R : Rules} (b : Board R) (s : Z) :
  filter (λ m, heuristic b m = s) (ordered b)
  = filter (λ m, heuristic b m = s) (legal_moves b).
Proof.
  unfold ordered.
  rewrite (filter_keyed (heuristic b)) by apply sort_desc_keys.
  rewrite sort_desc_filter.
  rewrite <- (filter_keyed (heuristic b)).
  - by rewrite <- list_fmap_compose, list_fmap_id.
  - apply Forall_fmap, Forall_forall. done.
Qed.

(** X8.  [order_moves] is stable: the moves of any one score come out in
    the order in which the rules engine lists them.  In particular, when
    all legal moves have the same score (no captures, promotions or checks,
    say) the list is returned as it is. *)
Theorem order_moves_stable (R : Rules) (w : World R) (s : Z) :
  ∃ l, order_moves w = (Ok l, w) ∧
       filter (λ m, heuristic (board w) m = s) l
       = filter (λ m, heuristic (board w) m = s) (legal_moves (board w)) ∧
       ((∀ m, m ∈ legal_moves (board w) → heuristic (board w) m = s) →
        l = legal_moves (board w)).
Proof.
  exists (ordered (board w)). split; [apply order_moves_run|].
  split; [apply ordered_stable|]. intros Hall.
  rewrite <- (filter_all (λ m, heuristic (board w) m = s) (ordered (board w))).
  - rewrite ordered_stable. apply filter_all, Forall_forall, Hall.
  - apply Forall_forall. intros m Hm. apply Hall. by apply elem_of_ordered.
Qed.

(** ** [evaluate_board]: the range of scores *)

Lemma signed_sum_bound (ps : list Piece) :
  - 9 * Z.of_nat (length ps) ≤ foldr Z.add 0 (signed_value <$> ps)
  ∧ foldr Z.add 0 (signed_value <$> ps) ≤ 9 * Z.of_nat (length ps).
Proof.
  induction ps as [|p ps IH]; csimpl; [lia|].
  assert (-9 ≤ signed_value p ∧ signed_value p ≤ 9).
  { unfold signed_value. destruct (color p), (piece_type p); simpl; lia. }
  lia.
Qed.

Lemma omap_length_le {A B} (f : A → option B) (l : list A) :
  (length (omap f l) ≤ length l)%nat.
Proof.
  induction l as [|x l IH]; csimpl; [lia|]. destruct (f x); simpl; lia.
Qed.

Lemma SQUARES_length : length SQUARES = 64%nat.
Proof. reflexivity. Qed.

Lemma material_balance_bound {R : Rules} (b : Board R) :
  -576 ≤ material_balance b ∧ material_balance b ≤ 576.
Proof.
  unfold material_balance, side_material.
  rewrite <- (signed_sum_split WHITE).
  pose proof (signed_sum_bound (pieces_on b)) as H.
  assert (length (pieces_on b) ≤ 64)%nat as Hlen.
  { unfold pieces_on. etrans; [apply omap_length_le|].
    by rewrite SQUARES_length. }
  revert H Hlen.
  generalize (foldr Z.add 0 (signed_value <$> pieces_on b)).
  generalize (length (pieces_on b)). intros n z H Hlen. lia.
Qed.

(** X9.  The scores [evaluate_board] returns: an integer between -576 and
    576 (64 squares of at most 9 points), or one of the two infinities; and
    an infinity is returned only for a checkmate, -inf with White to move
    and +inf with Black to move. *)
Theorem evaluate_board_range (R : Rules) (w : World R) :
  ∃ v, evaluate_board w = (Ok v, w) ∧
       ((∃ z, v = Fin z ∧ -576 ≤ z ∧ z ≤ 576) ∨
        (v = NegInf ∧ is_checkmate (board w) = true ∧ turn (board w) = WHITE) ∨
        (v = PosInf ∧ is_checkmate (board w) = true ∧ turn (board w) = BLACK)).
Proof.
  eexists. split; [apply evaluate_board_run|].
  unfold static_eval, WHITE, BLACK.
  destruct (is_checkmate (board w)).
  - destruct (turn (board w)); [right; left|right; right]; done.
  - left. destruct (_ || _).
    + exists 0. repeat split; lia.
    + eexists. split; [done|]. apply material_balance_bound.
Qed.

(** ** The images: [load_images] and [draw_pieces] *)

Section Images.
Variable Surface : Type.
Variable image_load : string → option Surface.
Variable transform_scale : Surface → Z * Z → Surface.

(** A dictionary filled by the loop holds, for every pair gone through,
    the scaled image of the pair's file, provided no two pairs give the same
    key; the other keys are as before. *)
Lemma load_loop_lookup (todo : list (string * string))
    (IMAGES0 IMAGES : gmap string Surface) :
  load_loop Surface image_load transform_scale todo IMAGES0 = (Ok (), IMAGES) →
  NoDup ((λ e, e.1 +:+ e.2) <$> todo) →
  (∀ k, k ∉ (λ e, e.1 +:+ e.2) <$> todo → IMAGES !! k = IMAGES0 !! k) ∧
  (∀ e, e ∈ todo →
        ∃ image,
          image_load (e.1 +:+ str_upper e.2 +:+ ".png") = Some image ∧
          IMAGES !! (e.1 +:+ e.2)
          = Some (transform_scale image (SQUARE_SIZE, SQUARE_SIZE))).
Proof.
  revert IMAGES0. induction todo as [|[color piece] todo IH];
    intros IMAGES0 Hrun Hnd.
  - inversion Hrun. split; [done|]. intros e He. by apply elem_of_nil in He.
  - cbn [load_loop] in Hrun.
    destruct (image_load _) as [image|] eqn:Hload; [|discriminate Hrun].
    csimpl in Hnd. apply NoDup_cons in Hnd as [Hfresh Hnd].
    destruct (IH _ Hrun Hnd) as [Hother Hthese]. split.
    + intros k Hk. csimpl in Hk. apply not_elem_of_cons in Hk as [Hne Hk].
      rewrite Hother by done. by apply lookup_insert_ne.
    + intros e [->|He]%elem_of_cons; [|by apply Hthese].
      exists image. split; [done|]. cbn [fst snd].
      rewrite Hother by done. apply lookup_insert_eq.
Qed.

(** Once [load_images] has returned, the dictionary holds, under the key
    [draw_pieces] builds for a piece, the scaled image of the file named
    after the piece. *)
Lemma loaded_images_lookup (IMAGES0 IMAGES : gmap string Surface) (p : Piece) :
  load_images Surface image_load transform_scale IMAGES0 = (Ok (), IMAGES) →
  ∃ image,
    image_load ((if color p then "w" else "b")
                +:+ str_upper (piece_letter (piece_type p)) +:+ ".png")
    = Some image ∧
    IMAGES !! ((if color p then "w" else "b") +:+ str_lower (symbol p))
    = Some (transform_scale image (SQUARE_SIZE, SQUARE_SIZE)).
Proof.
  intros Hrun. apply load_loop_lookup in Hrun as [_ Hthese].
  - destruct (Hthese ((if color p then "w" else "b"),
                      piece_letter (piece_type p))) as (image & Hload & Hkey).
    + destruct p as [[] []]; apply (bool_decide_unpack _); by vm_compute.
    + exists image. split; [exact Hload|].
      rewrite <- Hkey. f_equal. by destruct p as [[] []].
  - apply (bool_decide_unpack _). by vm_compute.
Qed.

End Images.

(** X10.  Once [load_images] has returned, the twelve files wP.png ...
    bK.png have been read, and the key [draw_pieces] builds for a piece,
    whatever the piece, is in [IMAGES] and maps to the image of the file of
    that piece's colour and type, scaled to a square of the board. *)
Theorem images_cover_every_piece (Surface : Type)
    (image_load : string → option Surface)
    (transform_scale : Surface → Z * Z → Surface)
    (IMAGES0 IMAGES : gmap string Surface) (p : Piece) :
  load_images Surface image_load transform_scale IMAGES0 = (Ok (), IMAGES) →
  ∃ image,
    image_load ((if color p then "w" else "b")
                +:+ str_upper (piece_letter (piece_type p)) +:+ ".png")
    = Some image ∧
    IMAGES !! ((if color p then "w" else "b") +:+ str_lower (symbol p))
    = Some (transform_scale image (64, 64)).
Proof. apply loaded_images_lookup. Qed.

(** The black queen, every file being readable. *)
Lemma images_cover_every_piece_witness :
  ∃ image,
    Files.image_load "bQ.png" = Some image ∧
    Files.IMAGES !! "bq" = Some (Files.transform_scale image (64, 64)).
Proof.
  apply (images_cover_every_piece string Files.image_load
           Files.transform_scale ∅ Files.IMAGES (black QUEEN)).
  vm_compute. reflexivity.
Defined.

Lemma draw_pieces_loop_run {R : Rules} (Surface : Type)
    (IMAGES : gmap string Surface) (b : Board R) (squares : list Square) :
  (∀ p : Piece,
     is_Some (IMAGES !! ((if color p then "w" else "b")
                         +:+ str_lower (symbol p)))) →
  draw_pieces_loop Surface IMAGES b squares =
  (Ok (),
   omap (λ square,
           p ← piece_at b square;
           image ← IMAGES !! ((if color p then "w" else "b")
                              +:+ str_lower (symbol p));
           Some (Blit image (square `mod` 8 * SQUARE_SIZE)
                   ((7 - square / 8) * SQUARE_SIZE))) squares).
Proof.
  intros Hall. induction squares as [|square rest IH]; csimpl; [done|].
  destruct (piece_at b square) as [p|]; csimpl; [|done].
  destruct (Hall p) as [image ->]. csimpl. by rewrite IH.
Qed.

(** X11.  With the images loaded, [draw_pieces] never fails on a missing
    key, whatever stands on the board, and it blits exactly one image per
    occupied square: the image of the piece's file, with its top left
    corner at column [square % 8] and row [7 - square // 8] of the grid of
    64-pixel squares. *)
Theorem draw_pieces_draws_each_piece (R : Rules) (Surface : Type)
    (image_load : string → option Surface)
    (transform_scale : Surface → Z * Z → Surface)
    (IMAGES0 IMAGES : gmap string Surface) (b : Board R) :
  load_images Surface image_load transform_scale IMAGES0 = (Ok (), IMAGES) →
  ∃ calls,
    draw_pieces Surface IMAGES b = (Ok (), calls) ∧
    length calls = length (pieces_on b) ∧
    ∀ call, call ∈ calls ↔
      ∃ square p image,
        0 ≤ square ∧ square < 64 ∧
        piece_at b square = Some p ∧
        image_load ((if color p then "w" else "b")
                    +:+ str_upper (piece_letter (piece_type p)) +:+ ".png")
        = Some image ∧
        call = Blit (transform_scale image (64, 64))
                 (square `mod` 8 * 64) ((7 - square / 8) * 64).
Proof.
  intros Hload.
  pose proof (λ p, loaded_images_lookup Surface image_load transform_scale
                     IMAGES0 IMAGES p Hload) as Hkey.
  eexists. split.
  { apply draw_pieces_loop_run. intros p.
    destruct (Hkey p) as (image & _ & ->). by eexists. }
  split.
  - unfold pieces_on. induction SQUARES as [|square rest IH]; csimpl; [done|].
    destruct (piece_at b square) as [p|]; csimpl; [|done].
    destruct (Hkey p) as (image & _ & ->). csimpl. by rewrite IH.
  - intros call. rewrite list_elem_of_omap. split.
    + intros (square & Hsq & Hcall).
      apply elem_of_seqZ in Hsq.
      destruct (piece_at b square) as [p|] eqn:Hp; [|done]. csimpl in Hcall.
      destruct (Hkey p) as (image & Himage & Hlookup).
      rewrite Hlookup in Hcall. csimpl in Hcall. inversion Hcall.
      exists square, p, image. repeat split; try done; lia.
    + intros (square & p & image & H0 & H64 & Hp & Himage & ->).
      exists square. split; [apply elem_of_seqZ; lia|].
      rewrite Hp. csimpl.
      destruct (Hkey p) as (image' & Himage' & ->). csimpl.
      rewrite Himage in Himage'. by inversion Himage'.
Qed.

(** The initial position: thirty-two calls. *)
Lemma draw_pieces_draws_each_piece_witness :
  let b : Board Explicit.rules := Explicit.mkBoard Opening.initial [] in
  ∃ calls,
    draw_pieces string Files.IMAGES b = (Ok (), calls) ∧
    length calls = length (pieces_on b) ∧
    ∀ call, call ∈ calls ↔
      ∃ square p image,
        0 ≤ square ∧ square < 64 ∧
        piece_at b square = Some p ∧
        Files.image_load ((if color p then "w" else "b")
                    +:+ str_upper (piece_letter (piece_type p)) +:+ ".png")
        = Some image ∧
        call = Blit (Files.transform_scale image (64, 64))
                 (square `mod` 8 * 64) ((7 - square / 8) * 64).
Proof.
  intros b.
  apply (draw_pieces_draws_each_piece Explicit.rules string Files.image_load
           Files.transform_scale ∅ Files.IMAGES b).
  vm_compute. reflexivity.
Defined.

(** *** The board on the screen *)

Lemma filter_bind {A B : Type} (P : B → Prop) `{!∀ x, Decision (P x)}
    (f : A → list B) (l : list A) :
  filter P (l ≫= f) = l ≫= (λ a, filter P (f a)).
Proof.
  induction l as [|a l IH]; csimpl; [done|]. by rewrite filter_app, IH.
Qed.

Lemma bind_nothing {A B : Type} (l : list A) :
  l ≫= (λ _, @nil B) = [].
Proof. induction l as [|a l IH]; csimpl; done. Qed.

(** Of the eight columns (or rows), the one that is kept. *)
Lemma pick_cell {B : Type} (k : Z) (g : Z → list B) :
  0 ≤ k < 8 →
  (seqZ 0 8 ≫= λ c, if bool_decide (c = k) then g c else []) = g k.
Proof.
  intros Hk.
  assert (k = 0 ∨ k = 1 ∨ k = 2 ∨ k = 3 ∨ k = 4 ∨ k = 5 ∨ k = 6 ∨ k = 7)
    as Hcases by lia.
  change (seqZ 0 8) with [0; 1; 2; 3; 4; 5; 6; 7].
  destruct_or!; subst k; csimpl; by rewrite ?app_nil_r.
Qed.

(** The cell of 64 pixels a coordinate falls in. *)
Lemma cell_of_pixel (x c : Z) :
  c * 64 ≤ x ∧ x < c * 64 + 64 ↔ c = x / 64.
Proof.
  split.
  - intros [H1 H2]. apply Z.div_unique with (r := x - c * 64); lia.
  - intros ->. pose proof (Z.div_mod x 64). pose proof (Z.mod_pos_bound x 64).
    lia.
Qed.

Lemma square_file_rank (f r : Z) :
  0 ≤ f < 8 → square f r `mod` 8 = f ∧ square f r / 8 = r.
Proof.
  intros Hf. unfold square. split.
  - rewrite Z.add_comm, Z.mod_add by lia. apply Z.mod_small. lia.
  - symmetry. apply Z.div_unique with (r := f); lia.
Qed.

(** The one rectangle of [draw_board] that holds a pixel. *)
Lemma draw_board_covering (Surface : Type) (x y : Z) :
  0 ≤ x < WIDTH → 0 ≤ y < HEIGHT →
  let sq := square (x / SQUARE_SIZE) (7 - y / SQUARE_SIZE) in
  0 ≤ sq < 64 ∧
  filter (λ call, covers x y call = true) (draw_board Surface) =
  [FillRect (if Z.odd (sq `mod` 8 + sq / 8) then LIGHT else DARK)
     (sq `mod` 8 * 64) ((7 - sq / 8) * 64) 64 64].
Proof.
  change WIDTH with 512. change HEIGHT with 512. change SQUARE_SIZE with 64.
  intros Hx Hy sq.
  assert (0 ≤ x / 64 < 8) as Hc.
  { split; [apply Z.div_pos; lia|apply Z.div_lt_upper_bound; lia]. }
  assert (0 ≤ y / 64 < 8) as Hr.
  { split; [apply Z.div_pos; lia|apply Z.div_lt_upper_bound; lia]. }
  destruct (square_file_rank (x / 64) (7 - y / 64) Hc) as [Hfile Hrank].
  fold sq in Hfile, Hrank. split; [unfold sq, square; lia|].
  rewrite Hfile, Hrank.
  unfold draw_board. change SQUARE_SIZE with 64. rewrite filter_bind.
  transitivity
    (seqZ 0 8 ≫= λ r, if bool_decide (r = y / 64) then
       (seqZ 0 8 ≫= λ c, if bool_decide (c = x / 64) then
          [@FillRect Surface ([LIGHT; DARK] !!! Z.to_nat ((r + c) `mod` 2))
             (c * 64) (r * 64) 64 64] else []) else []).
  { apply list_bind_ext; [|done]. intros r. rewrite filter_bind.
    destruct (decide (r = y / 64)) as [Hrow|Hrow].
    - rewrite (bool_decide_eq_true_2 _ Hrow).
      apply list_bind_ext; [|done]. intros c.
      rewrite filter_cons, filter_nil. cbn [covers].
      destruct (decide (c = x / 64)) as [Hcol|Hcol].
      + rewrite (bool_decide_eq_true_2 _ Hcol).
        rewrite decide_True; [done|]. apply bool_decide_eq_true.
        unfold inside. pose proof (proj2 (cell_of_pixel x c) Hcol).
        pose proof (proj2 (cell_of_pixel y r) Hrow). lia.
      + rewrite (bool_decide_eq_false_2 _ Hcol).
        rewrite decide_False; [done|]. intros Hin.
        apply bool_decide_eq_true in Hin. unfold inside in Hin.
        apply Hcol, cell_of_pixel. lia.
    - rewrite (bool_decide_eq_false_2 _ Hrow).
      etrans; [|apply (bind_nothing (seqZ 0 8))].
      apply list_bind_ext; [|done]. intros c.
      rewrite filter_cons, filter_nil. cbn [covers].
      rewrite decide_False; [done|]. intros Hin.
      apply bool_decide_eq_true in Hin. unfold inside in Hin.
      apply Hrow, cell_of_pixel. lia. }
  rewrite (pick_cell (y / 64)) by done. rewrite (pick_cell (x / 64)) by done.
  replace (7 - (7 - y / 64)) with (y / 64) by lia.
  f_equal. f_equal. clear Hfile Hrank. subst sq.
  revert Hc Hr. generalize (y / 64) (x / 64). intros r c Hc Hr.
  assert (c = 0 ∨ c = 1 ∨ c = 2 ∨ c = 3 ∨ c = 4 ∨ c = 5 ∨ c = 6 ∨ c = 7)
    as Hcs by lia.
  assert (r = 0 ∨ r = 1 ∨ r = 2 ∨ r = 3 ∨ r = 4 ∨ r = 5 ∨ r = 6 ∨ r = 7)
    as Hrs by lia.
  clear Hc Hr. destruct_or!; subst c r; reflexivity.
Qed.

(** X12.  [draw_board] tiles the window: every pixel lies in exactly one of
    the sixty-four rectangles it fills, the one of the square that a click
    on the pixel names in [main], placed where [draw_pieces] puts the piece
    of that square; the square is light when file and rank add up to an odd
    number, so that a1 is dark. *)
Theorem draw_board_tiles_window (Surface : Type) (x y : Z) :
  0 ≤ x < WIDTH → 0 ≤ y < HEIGHT →
  let sq := square (x / SQUARE_SIZE) (7 - y / SQUARE_SIZE) in
  0 ≤ sq < 64 ∧
  filter (λ call, covers x y call = true) (draw_board Surface) =
  [FillRect (if Z.odd (sq `mod` 8 + sq / 8) then LIGHT else DARK)
     (sq `mod` 8 * 64) ((7 - sq / 8) * 64) 64 64].
Proof. apply draw_board_covering. Qed.

(** The pixel (266, 394) lies on e2, a light square. *)
Lemma draw_board_tiles_window_witness :
  let sq := square (266 / SQUARE_SIZE) (7 - 394 / SQUARE_SIZE) in
  0 ≤ sq < 64 ∧
  filter (λ call, covers 266 394 call = true) (draw_board string) =
  [FillRect (if Z.odd (sq `mod` 8 + sq / 8) then LIGHT else DARK)
     (sq `mod` 8 * 64) ((7 - sq / 8) * 64) 64 64].
Proof.
  apply (draw_board_tiles_window string 266 394); vm_compute; split; congruence.
Defined.

(** *** A click on the board *)

Lemma draw_pieces_loop_blits {R : Rules} (Surface : Type)
    (IMAGES : gmap string Surface) (b : Board R) (x y : Z)
    (squares : list Square) :
  filter (λ call, covers x y call = true)
    (draw_pieces_loop Surface IMAGES b squares).2 = [].
Proof.
  induction squares as [|square rest IH]; cbn [draw_pieces_loop]; [done|].
  destruct (piece_at b square) as [p|]; [|done].
  destruct (IMAGES !! _) as [image|]; [|done].
  destruct (draw_pieces_loop Surface IMAGES b rest) as [o calls].
  cbn [snd] in *. rewrite filter_cons. cbn [covers].
  rewrite decide_False; done.
Qed.

(** What a frame draws over a pixel: the square of the board and, when a
    square is selected, its highlight if it holds the pixel. *)
Lemma render_covering {R : Rules} (Surface : Type)
    (IMAGES : gmap string Surface) (a : App R) (x y : Z) :
  (render Surface IMAGES a).1 = Ok () →
  filter (λ call, covers x y call = true) (render Surface IMAGES a).2 =
  filter (λ call, covers x y call = true) (draw_board Surface) ++
  match selected_square a with
  | Some selected =>
      filter (λ call, covers x y call = true)
        [FrameRect HIGHLIGHT (selected `mod` 8 * SQUARE_SIZE)
           ((7 - selected / 8) * SQUARE_SIZE) SQUARE_SIZE SQUARE_SIZE 5]
  | None => []
  end.
Proof.
  unfold render, draw_pieces.
  pose proof (draw_pieces_loop_blits Surface IMAGES (board (world a)) x y
                SQUARES) as Hblits.
  revert Hblits.
  generalize (draw_pieces_loop Surface IMAGES (board (world a)) SQUARES).
  intros [[[]|] pieces] Hblits Hok; [|done].
  cbn [snd] in Hblits |- *. rewrite !filter_app, Hblits.
  by destruct (selected_square a).
Qed.

(** X13.  A click with nothing selected, while the AI is not thinking,
    leaves the board as it is; if a white piece stands on the square under
    the pointer, the next frame draws the highlight on the very rectangle
    of the board that holds the pointer, and if the square is empty or
    holds a black piece nothing is highlighted. *)
Theorem click_highlights_pointed_square (R : Rules) (result : Board R → string)
    (Surface : Type) (IMAGES : gmap string Surface) (a : App R) (x y : Z) :
  thinking a = false → selected_square a = None →
  0 ≤ x < WIDTH → 0 ≤ y < HEIGHT →
  let a' := handle_events result [MOUSEBUTTONDOWN (x, y)] a in
  (render Surface IMAGES a').1 = Ok () →
  let sq := square (x / SQUARE_SIZE) (7 - y / SQUARE_SIZE) in
  let colour := if Z.odd (sq `mod` 8 + sq / 8) then LIGHT else DARK in
  let left := sq `mod` 8 * 64 in
  let top := (7 - sq / 8) * 64 in
  world a' = world a ∧
  filter (λ call, covers x y call = true) (render Surface IMAGES a').2 =
  FillRect colour left top 64 64 ::
  match piece_at (board (world a)) sq with
  | Some p => if color p then [FrameRect HIGHLIGHT left top 64 64 5] else []
  | None => []
  end.
Proof.
  intros Hthinking Hselected Hx Hy a' Hok sq colour left top.
  destruct (draw_board_covering Surface x y Hx Hy) as [Hsq Hboard].
  fold sq in Hsq, Hboard. fold colour left top in Hboard.
  assert (world a' = world a ∧
          selected_square a' =
          match piece_at (board (world a)) sq with
          | Some p => if color p then Some sq else None
          | None => None
          end) as [Hworld Hsel].
  { unfold a'. cbn [handle_events]. rewrite Hthinking, Hselected. fold sq.
    destruct (piece_at (board (world a)) sq) as [p|]; [|done].
    by destruct (color p). }
  split; [done|].
  rewrite (render_covering Surface IMAGES a' x y Hok), Hboard, Hsel.
  cbn [app]. f_equal.
  destruct (piece_at (board (world a)) sq) as [p|]; [|done].
  destruct (color p); [|done].
  rewrite filter_cons, filter_nil. cbn [covers].
  assert (sq `mod` 8 = x / 64 ∧ sq / 8 = 7 - y / 64) as [Hfile Hrank].
  { apply square_file_rank. change WIDTH with 512 in Hx.
    split; [apply Z.div_pos; lia|apply Z.div_lt_upper_bound; lia]. }
  rewrite decide_True; [done|]. apply bool_decide_eq_true.
  change SQUARE_SIZE with 64. unfold inside. rewrite Hfile, Hrank.
  pose proof (proj2 (cell_of_pixel x (x / 64)) eq_refl).
  pose proof (proj2 (cell_of_pixel y (y / 64)) eq_refl). lia.
Qed.

(** A click on the pawn of e2 in the initial position. *)
Lemma click_highlights_pointed_square_witness :
  let a : App Explicit.rules :=
    main_start (@mkWorld Explicit.rules (Explicit.mkBoard Opening.initial []) ∅) in
  let a' := handle_events Files.result [MOUSEBUTTONDOWN (266, 394)] a in
  let sq := square (266 / SQUARE_SIZE) (7 - 394 / SQUARE_SIZE) in
  let colour := if Z.odd (sq `mod` 8 + sq / 8) then LIGHT else DARK in
  let left := sq `mod` 8 * 64 in
  let top := (7 - sq / 8) * 64 in
  world a' = world a ∧
  filter (λ call, covers 266 394 call = true) (render string Files.IMAGES a').2 =
  FillRect colour left top 64 64 ::
  match piece_at (board (world a)) sq with
  | Some p => if color p then [FrameRect HIGHLIGHT left top 64 64 5] else []
  | None => []
  end.
Proof.
  intros a.
  apply (click_highlights_pointed_square Explicit.rules Files.result string
           Files.IMAGES a 266 394);
    vm_compute; try reflexivity; split; congruence.
Defined.

(** *** The game loop *)

Section Loop.
Context {R : Rules}.
Variable result : Board R → string.
Variable b0 : Board R.

Lemma handle_events_fair (events : list Event) (a : App R) :
  fair b0 a → fair b0 (handle_events result events a).
Proof.
  revert a. induction events as [|e rest IH]; intros a Hfair; [done|].
  pose proof Hfair as (Hplayed & Hwhite & Hidle).
  destruct e as [|[x y]|]; cbn [handle_events].
  - apply IH. done.
  - destruct (thinking a) eqn:Hthinking; [by apply IH|].
    destruct (selected_square a) as [selected|] eqn:Hselected.
    + case_bool_decide as Hlegal.
      * destruct (is_game_over _).
        -- split; [|split]; cbn; try done. by constructor.
        -- apply IH. split; [|split]; cbn; try done. by constructor.
      * apply IH. split; [|split]; cbn; done.
    + destruct (piece_at _ _) as [p|] eqn:Hp; [|by apply IH].
      destruct (color p) eqn:Hcolor; [|by apply IH].
      apply IH. split; [|split]; cbn; [done| |congruence].
      intros s [= <-]. by exists p.
  - by apply IH.
Qed.

Lemma handle_events_alive (events : list Event) (a : App R) :
  alive a → alive (handle_events result events a).
Proof.
  revert a. induction events as [|e rest IH]; intros a Halive; [done|].
  destruct e as [|[x y]|]; cbn [handle_events].
  - apply IH. done.
  - destruct (thinking a); [by apply IH|].
    destruct (selected_square a) as [selected|].
    + case_bool_decide as Hlegal.
      * destruct (is_game_over _) eqn:Hover; [done|].
        apply IH. intros _. done.
      * by apply IH.
    + destruct (piece_at _ _) as [p|]; [|by apply IH].
      destruct (color p); by apply IH.
  - by apply IH.
Qed.

Lemma ai_turn_fair (law : pop_undoes_push R) (fuel : nat) (a a' : App R) :
  fair b0 a → ai_turn result fuel a = (Ok (), a') →
  fair b0 a' ∧ thinking a' = false.
Proof.
  intros (Hplayed & Hwhite & Hidle). unfold ai_turn.
  destruct (thinking a) eqn:Hthinking.
  - specialize (Hidle eq_refl).
    destruct (find_best_move fuel 5 (world a)) as [[best_move|] w] eqn:Hrun;
      [|done].
    assert (board w = board (world a)) as Hboard.
    { rewrite find_best_move_run in Hrun.
      destruct (search_root fuel 5 (world a)) as [[r|] w1] eqn:Hsearch;
        [|done].
      inversion Hrun; subst. by eapply search_root_restores. }
    assert (∀ w1 out,
      (w1, out) = match best_move with
                  | Some m => if move_bool m then (pushed m w, [AIPlays m])
                              else (w, [NoLegalMoves])
                  | None => (w, [NoLegalMoves])
                  end →
      played b0 (board w1)) as Hnext.
    { intros w1 out Hw1. destruct best_move as [m|].
      - apply find_best_move_legal in Hrun.
        destruct (move_bool m); inversion Hw1; subst; cbn.
        + rewrite Hboard. by constructor.
        + by rewrite Hboard.
      - inversion Hw1; subst. by rewrite Hboard. }
    destruct (match best_move with Some _ => _ | None => _ end) as [w1 out].
    specialize (Hnext w1 out eq_refl).
    destruct (is_game_over (board w1)); intros [= <-]; cbn;
      (split; [|done]); (split; [|split]); cbn; try done;
      rewrite Hidle; done.
  - intros [= <-]. split; [|done]. split; [|split]; try done. congruence.
Qed.

Lemma ai_turn_alive (fuel : nat) (a a' : App R) :
  alive a → ai_turn result fuel a = (Ok (), a') → alive a'.
Proof.
  intros Halive. unfold ai_turn.
  destruct (thinking a); [|by intros [= <-]].
  destruct (find_best_move fuel 5 (world a)) as [[best_move|] w]; [|done].
  destruct (match best_move with Some _ => _ | None => _ end) as [w1 out].
  destruct (is_game_over (board w1)) eqn:Hover; intros [= <-]; [done|].
  intros _. done.
Qed.

Variable Surface : Type.
Variable IMAGES : gmap string Surface.

Lemma main_loop_fair (law : pop_undoes_push R) (fuel : nat)
    (passes : list (list Event)) (a : App R) :
  fair b0 a → thinking a = false →
  (main_loop result Surface fuel IMAGES passes a).1.1 = Ok () →
  fair b0 (main_loop result Surface fuel IMAGES passes a).1.2 ∧
  thinking (main_loop result Surface fuel IMAGES passes a).1.2 = false.
Proof.
  revert a. induction passes as [|events rest IH]; intros a Hfair Hidle;
    cbn [main_loop]; [done|].
  destruct (running a); [|done]. unfold play.
  pose proof (handle_events_fair events a Hfair) as Hmid.
  destruct (ai_turn result fuel (handle_events result events a))
    as [[[]|] a1] eqn:Hturn; [|done].
  destruct (ai_turn_fair law _ _ _ Hmid Hturn) as [Hfair1 Hidle1].
  generalize (render Surface IMAGES a1). intros [[[]|] calls]; [|done].
  specialize (IH a1 Hfair1 Hidle1).
  destruct (main_loop result Surface fuel IMAGES rest a1) as [[o a2] drawn].
  done.
Qed.

Lemma main_loop_alive (fuel : nat) (passes : list (list Event)) (a : App R) :
  alive a →
  (main_loop result Surface fuel IMAGES passes a).1.1 = Ok () →
  alive (main_loop result Surface fuel IMAGES passes a).1.2.
Proof.
  revert a. induction passes as [|events rest IH]; intros a Halive;
    cbn [main_loop]; [done|].
  destruct (running a) eqn:Hrunning; [|done]. unfold play.
  pose proof (handle_events_alive events a Halive) as Hmid.
  destruct (ai_turn result fuel (handle_events result events a))
    as [[[]|] a1] eqn:Hturn; [|done].
  pose proof (ai_turn_alive _ _ _ Hmid Hturn) as Halive1.
  generalize (render Surface IMAGES a1). intros [[[]|] calls]; [|done].
  specialize (IH a1 Halive1).
  destruct (main_loop result Surface fuel IMAGES rest a1) as [[o a2] drawn].
  done.
Qed.

End Loop.

(** X14.  Whatever the player clicks, [main] only ever pushes legal moves:
    as long as no exception leaves the loop, the board it holds was reached
    from the board it started on by a sequence of moves each of which was
    legal when it was pushed, the player's as well as the AI's, and the
    search has left no move of its own on the board. *)
Theorem main_plays_legal_moves (R : Rules) (result : Board R → string)
    (Surface : Type) (IMAGES : gmap string Surface) (fuel : nat)
    (passes : list (list Event)) (w : World R) :
  pop_undoes_push R →
  (main_loop result Surface fuel IMAGES passes (main_start w)).1.1 = Ok () →
  played (board w)
    (board (world (main_loop result Surface fuel IMAGES passes
                     (main_start w)).1.2)).
Proof.
  intros law Hok.
  apply (main_loop_fair result (board w) Surface IMAGES law fuel passes
           (main_start w)); [|done|done].
  split; [constructor|]. split; done.
Qed.

(** The player opens with the king's pawn and the AI replies. *)
Lemma main_plays_legal_moves_witness :
  let w := @mkWorld Explicit.rules (Explicit.mkBoard Opening.initial []) ∅ in
  let passes := [[MOUSEBUTTONDOWN (266, 394)]; [MOUSEBUTTONDOWN (266, 266)]] in
  played (board w)
    (board (world (main_loop Files.result string 10 Files.IMAGES passes
                     (main_start w)).1.2)).
Proof.
  intros w passes.
  apply (main_plays_legal_moves Explicit.rules Files.result string
           Files.IMAGES 10 passes w).
  - exact explicit_pop_push.
  - vm_compute. reflexivity.
Defined.

(** X15.  The square [main] highlights always holds a white piece of the
    board as it then is: a square is selected only under a white piece, and
    the AI never moves while a square is selected, so that the piece cannot
    have been captured since. *)
Theorem selected_square_holds_white_piece (R : Rules)
    (result : Board R → string) (Surface : Type)
    (IMAGES : gmap string Surface) (fuel : nat)
    (passes : list (list Event)) (w : World R) (s : Square) :
  pop_undoes_push R →
  (main_loop result Surface fuel IMAGES passes (main_start w)).1.1 = Ok () →
  let a := (main_loop result Surface fuel IMAGES passes (main_start w)).1.2 in
  selected_square a = Some s →
  ∃ p, piece_at (board (world a)) s = Some p ∧ color p = WHITE.
Proof.
  intros law Hok a.
  assert (fair (board w) a) as (_ & Hwhite & _); [|by apply Hwhite].
  apply (main_loop_fair result (board w) Surface IMAGES law fuel passes
           (main_start w)); [|done|done].
  split; [constructor|]. split; done.
Qed.

(** The player opens with the king's pawn, the AI replies, and the player
    picks up the queen's pawn. *)
Lemma selected_square_holds_white_piece_witness :
  let w := @mkWorld Explicit.rules (Explicit.mkBoard Opening.initial []) ∅ in
  let passes := [[MOUSEBUTTONDOWN (266, 394)]; [MOUSEBUTTONDOWN (266, 266)];
                 [MOUSEBUTTONDOWN (202, 394)]] in
  let a := (main_loop Files.result string 10 Files.IMAGES passes
              (main_start w)).1.2 in
  ∃ p, piece_at (board (world a)) (square 3 1) = Some p ∧ color p = WHITE.
Proof.
  intros w passes.
  apply (selected_square_holds_white_piece Explicit.rules Files.result string
           Files.IMAGES 10 passes w (square 3 1)).
  - exact explicit_pop_push.
  - vm_compute. reflexivity.
  - vm_compute. reflexivity.
Defined.

(** X16.  [main] does not go on with a finished game: started on a board
    on which the game is not over, the loop is still running after a pass
    only if the game is not over on the board as the pass left it. *)
Theorem main_stops_when_game_is_over (R : Rules) (result : Board R → string)
    (Surface : Type) (IMAGES : gmap string Surface) (fuel : nat)
    (passes : list (list Event)) (w : World R) :
  is_game_over (board w) = false →
  (main_loop result Surface fuel IMAGES passes (main_start w)).1.1 = Ok () →
  let a := (main_loop result Surface fuel IMAGES passes (main_start w)).1.2 in
  running a = true → is_game_over (board (world a)) = false.
Proof.
  intros Hstart Hok a.
  apply (main_loop_alive result Surface IMAGES fuel passes (main_start w));
    [|done].
  intros _. done.
Qed.

Lemma main_stops_when_game_is_over_witness :
  let w := @mkWorld Explicit.rules (Explicit.mkBoard Opening.initial []) ∅ in
  let passes := [[MOUSEBUTTONDOWN (266, 394)]; [MOUSEBUTTONDOWN (266, 266)]] in
  let a := (main_loop Files.result string 10 Files.IMAGES passes
              (main_start w)).1.2 in
  is_game_over (board (world a)) = false.
Proof.
  intros w passes.
  apply (main_stops_when_game_is_over Explicit.rules Files.result string
           Files.IMAGES 10 passes w); vm_compute; reflexivity.
Defined.

(** *** When the player cannot move *)

Lemma handle_events_stalled {R : Rules} (result : Board R → string)
    (events : list Event) (a : App R) :
  Forall (λ m, color <$> piece_at (board (world a)) (from_square m)
               = Some BLACK) (legal_moves (board (world a))) →
  thinking a = false →
  (∀ s, selected_square a = Some s →
        color <$> piece_at (board (world a)) s = Some WHITE) →
  let a' := handle_events result events a in
  world a' = world a ∧ printed a' = printed a ∧ thinking a' = false ∧
  (∀ s, selected_square a' = Some s →
        color <$> piece_at (board (world a)) s = Some WHITE).
Proof.
  revert a. induction events as [|e rest IH]; intros a Hblack Hidle Hwhite;
    [done|].
  destruct e as [|[x y]|]; cbn [handle_events].
  - by apply (IH (mkApp _ _ _ _ _)).
  - rewrite Hidle.
    destruct (selected_square a) as [selected|] eqn:Hselected.
    + rewrite bool_decide_eq_false_2.
      * by apply (IH (mkApp _ _ _ _ _)).
      * intros Hlegal.
        pose proof (proj1 (Forall_forall _ _) Hblack _ Hlegal) as Hfrom.
        cbn in Hfrom. rewrite (Hwhite selected eq_refl) in Hfrom. done.
    + assert (∀ s, selected_square a = Some s →
                color <$> piece_at (board (world a)) s = Some WHITE)
        as Hnone by congruence.
      destruct (piece_at _ _) as [p|] eqn:Hp; [|by apply IH].
      destruct (color p) eqn:Hcolor; [|by apply IH].
      apply (IH (mkApp _ _ _ _ _)); cbn; try done.
      intros s [= <-]. rewrite Hp. csimpl. by rewrite Hcolor.
  - by apply IH.
Qed.

(** X17.  [main] lets the player move white pieces only, and the AI moves
    only in answer to a move of the player.  So when it is Black's turn
    while the AI is not thinking - as after a search that returned no move -
    the game cannot go on: whatever is clicked from then on, the board and
    the table stay as they are and nothing more is printed. *)
Theorem black_to_move_stalls (R : Rules) (result : Board R → string)
    (Surface : Type) (IMAGES : gmap string Surface) (fuel : nat)
    (passes : list (list Event)) (a : App R) :
  Forall (λ m, color <$> piece_at (board (world a)) (from_square m)
               = Some BLACK) (legal_moves (board (world a))) →
  thinking a = false → selected_square a = None →
  let a' := (main_loop result Surface fuel IMAGES passes a).1.2 in
  world a' = world a ∧ printed a' = printed a.
Proof.
  intros Hblack Hidle Hnone.
  assert (∀ s, selected_square a = Some s →
               color <$> piece_at (board (world a)) s = Some WHITE) as Hwhite.
  { intros s Hs. congruence. }
  clear Hnone. revert a Hblack Hidle Hwhite.
  induction passes as [|events rest IH]; intros a Hblack Hidle Hwhite;
    cbn [main_loop]; [done|].
  destruct (running a); [|done]. unfold play.
  destruct (handle_events_stalled result events a Hblack Hidle Hwhite)
    as (Hworld & Hprinted & Hidle1 & Hwhite1).
  unfold ai_turn. rewrite Hidle1.
  generalize (render Surface IMAGES (handle_events result events a)).
  intros [[[]|] calls]; [|done].
  rewrite <- Hworld in Hblack, Hwhite1.
  specialize (IH _ Hblack Hidle1 Hwhite1).
  destruct (main_loop result Surface fuel IMAGES rest
              (handle_events result events a)) as [[o a2] drawn].
  cbn in IH |- *. destruct IH as [-> ->]. done.
Qed.

(** King and rook against king with Black to move: the player clicks on
    the rook on h1 and then on h8. *)
Lemma black_to_move_stalls_witness :
  let a := main_start (Explicit.start KRK.root) in
  let a' := (main_loop Files.result string 10 Files.IMAGES
               [[MOUSEBUTTONDOWN (458, 458)]; [MOUSEBUTTONDOWN (458, 10)]]
               a).1.2 in
  world a' = world a ∧ printed a' = printed a.
Proof.
  intros a.
  apply (black_to_move_stalls Explicit.rules Files.result string Files.IMAGES
           10 [[MOUSEBUTTONDOWN (458, 458)]; [MOUSEBUTTONDOWN (458, 10)]] a).
  - apply (bool_decide_unpack _). vm_compute. exact I.
  - reflexivity.
  - reflexivity.
Defined.



(** *** Missing image files *)

Lemma load_loop_returns (Surface : Type) (image_load : string → option Surface)
    (transform_scale : Surface → Z * Z → Surface)
    (todo : list (string * string)) (IMAGES : gmap string Surface) :
  (load_loop Surface image_load transform_scale todo IMAGES).1 = Ok () ↔
  Forall (λ e, is_Some (image_load (e.1 +:+ str_upper e.2 +:+ ".png"))) todo.
Proof.
  revert IMAGES. induction todo as [|[color piece] rest IH]; intros IMAGES;
    cbn [load_loop].
  - split; [constructor|done].
  - rewrite Forall_cons. cbn [fst snd].
    destruct (image_load _) as [image|].
    + rewrite IH. split; [by split|by intros [_ ?]].
    + split; [done|]. by intros [[? [=]] _].
Qed.

(** X19.  [load_images] returns exactly when each of the twelve files, the
    letter of the colour followed by the upper-case letter of the piece and
    [.png], can be read; if one is missing the exception leaves it, and
    with it the module. *)
Theorem load_images_needs_every_file (Surface : Type)
    (image_load : string → option Surface)
    (transform_scale : Surface → Z * Z → Surface)
    (IMAGES : gmap string Surface) :
  (load_images Surface image_load transform_scale IMAGES).1 = Ok () ↔
  ∀ p : Piece,
    is_Some (image_load ((if color p then "w" else "b")
                         +:+ str_upper (piece_letter (piece_type p))
                         +:+ ".png")).
Proof.
  unfold load_images. rewrite load_loop_returns. csimpl. split.
  - intros Hall [t c].
    repeat (apply Forall_cons in Hall as [? Hall]).
    destruct c, t; assumption.
  - intros Hall.
    repeat first [apply Forall_nil_2 | apply Forall_cons_2].
    + exact (Hall (white PAWN)).
    + exact (Hall (white KNIGHT)).
    + exact (Hall (white BISHOP)).
    + exact (Hall (white ROOK)).
    + exact (Hall (white QUEEN)).
    + exact (Hall (white KING)).
    + exact (Hall (black PAWN)).
    + exact (Hall (black KNIGHT)).
    + exact (Hall (black BISHOP)).
    + exact (Hall (black ROOK)).
    + exact (Hall (black QUEEN)).
    + exact (Hall (black KING)).
Qed.

(** *** Closing the window *)

Lemma handle_events_stopped {R : Rules} (result : Board R → string)
    (events : list Event) (a : App R) :
  running a = false → running (handle_events result events a) = false.
Proof.
  revert a. induction events as [|e rest IH]; intros a Hstopped; [done|].
  destruct e as [|[x y]|]; cbn [handle_events]; [by apply IH| |by apply IH].
  destruct (thinking a); [by apply IH|].
  destruct (selected_square a) as [selected|].
  - case_bool_decide; [|by apply IH].
    destruct (is_game_over _); [done|by apply IH].
  - destruct (piece_at _ _) as [p|]; [|by apply IH].
    destruct (color p); by apply IH.
Qed.

Lemma handle_events_quit {R : Rules} (result : Board R → string)
    (events : list Event) (a : App R) :
  QUIT ∈ events → running (handle_events result events a) = false.
Proof.
  revert a. induction events as [|e rest IH]; intros a Hquit.
  { by apply elem_of_nil in Hquit. }
  apply elem_of_cons in Hquit.
  destruct e as [|[x y]|]; cbn [handle_events].
  - by apply handle_events_stopped.
  - destruct Hquit as [[=]|Hquit].
    destruct (thinking a); [by apply IH|].
    destruct (selected_square a) as [selected|].
    + case_bool_decide; [|by apply IH].
      destruct (is_game_over _); [done|by apply IH].
    + destruct (piece_at _ _) as [p|]; [|by apply IH].
      destruct (color p); by apply IH.
  - destruct Hquit as [[=]|Hquit]. by apply IH.
Qed.

(** X20.  Closing the window ends the loop, but only at the end of the
    pass: the events that came with the [QUIT] are still handled, a move
    clicked among them is played and answered by the AI, the frame is drawn,
    and then [main] leaves the loop whatever events are still to come. *)
Theorem quit_ends_the_loop (R : Rules) (result : Board R → string)
    (Surface : Type) (IMAGES : gmap string Surface) (fuel : nat)
    (events : list Event) (rest : list (list Event)) (a : App R) :
  QUIT ∈ events → running a = true →
  (play result fuel events a).1 = Ok () →
  let a' := (play result fuel events a).2 in
  (render Surface IMAGES a').1 = Ok () →
  running a' = false ∧
  main_loop result Surface fuel IMAGES (events :: rest) a =
  (Ok (), a', [(render Surface IMAGES a').2]).
Proof.
  intros Hquit Hrunning Hplay a' Hrender.
  assert (play result fuel events a = (Ok (), a')) as Hrun.
  { unfold a'. by destruct (play result fuel events a) as [[[]|] a1]. }
  clearbody a'. clear Hplay.
  assert (running a' = false) as Hstopped.
  { pose proof (handle_events_quit result events a Hquit) as Hmid.
    revert Hrun. unfold play, ai_turn.
    destruct (thinking _); [|by intros [= <-]].
    destruct (find_best_move _ _ _) as [[best_move|] w]; [|done].
    destruct (match best_move with Some _ => _ | None => _ end) as [w1 out].
    destruct (is_game_over _); by intros [= <-]. }
  split; [done|]. cbn [main_loop]. rewrite Hrunning, Hrun.
  revert Hrender. generalize (render Surface IMAGES a').
  intros [[[]|] calls]; [|done]. intros _.
  destruct rest as [|events' rest]; cbn [main_loop snd]; [done|].
  by rewrite Hstopped.
Qed.

(** The player picks up the king's pawn, and in the next pass plays it to
    e4 while closing the window: the AI still replies. *)
Lemma quit_ends_the_loop_witness :
  let a : App Explicit.rules :=
    mkApp (Explicit.start Opening.initial) (Some (square 4 1)) true false [] in
  let events := [MOUSEBUTTONDOWN (266, 266); QUIT] in
  let a' := (play Files.result 10 events a).2 in
  running a' = false ∧
  main_loop Files.result string 10 Files.IMAGES
    (events :: [[MOUSEBUTTONDOWN (10, 10)]]) a =
  (Ok (), a', [(render string Files.IMAGES a').2]).
Proof.
  intros a events.
  apply (quit_ends_the_loop Explicit.rules Files.result string Files.IMAGES 10
           events [[MOUSEBUTTONDOWN (10, 10)]] a).
  - apply (bool_decide_unpack _). vm_compute. exact I.
  - reflexivity.
  - vm_compute. reflexivity.
  - vm_compute. reflexivity.
Defined.
